(** * Evil Hangman: the candidate-narrowing rule and the turn loop

    A shallow embedding of [hangman.py].  Python strings are modelled as
    [string] (a sequence of 8-bit characters, classified as ASCII: [lower],
    [isalpha] and [strip] below do what the Python methods do on ASCII
    text, and a word file or an input with other characters is outside
    this model), the [families] dictionary as an association list in insertion order (the
    order in which [families.items()] yields its entries), the set of
    guessed letters as a [gset ascii], integers as [Z] or [nat], and an
    uncaught exception as [Raise].  The draw of [random.choice] is an
    explicit argument [r]. *)

From Stdlib Require Import ZArith Ascii String.
From stdpp Require Import base decidable option list sorting gmap sets strings.

Local Open Scope Z_scope.
Local Open Scope nat_scope.

(** ** Exceptions *)

Inductive exn := ValueError | IndexError.

Inductive result (A : Type) :=
| Ok (a : A)
| Raise (e : exn).
Arguments Ok {A} a.
Arguments Raise {A} e.

#[global] Instance result_ret : MRet result := fun A a => Ok a.
#[global] Instance result_bind : MBind result := fun A B f m =>
  match m with
  | Ok a => f a
  | Raise e => Raise e
  end.

(** ** Strings *)

(** The characters of a [str], in order. *)
Definition chars (w : string) : list ascii := list_ascii_of_string w.

Definition is_upper (c : ascii) : bool :=
  let n := nat_of_ascii c in (65 <=? n) && (n <=? 90).

Definition is_lower (c : ascii) : bool :=
  let n := nat_of_ascii c in (97 <=? n) && (n <=? 122).

Definition lower_char (c : ascii) : ascii :=
  if is_upper c then ascii_of_nat (nat_of_ascii c + 32) else c.

(** [s.lower()] *)
Fixpoint lower (s : string) : string :=
  match s with
  | EmptyString => EmptyString
  | String c rest => String (lower_char c) (lower rest)
  end.

(** [s.isalpha()]: at least one character, and all of them letters. *)
Fixpoint all_alpha (s : string) : bool :=
  match s with
  | EmptyString => true
  | String c rest => (is_upper c || is_lower c) && all_alpha rest
  end.

Definition isalpha (s : string) : bool :=
  match s with
  | EmptyString => false
  | _ => all_alpha s
  end.

Fixpoint lstrip (s : string) : string :=
  match s with
  | EmptyString => EmptyString
  | String c rest => if Ascii.is_space c then lstrip rest else s
  end.

(** [s.strip()] *)
Definition strip (s : string) : string :=
  String.rev (lstrip (String.rev (lstrip s))).

(** ** Built-ins on sequences *)

(** [max(...)] over a generator: [ValueError] when it yields nothing. *)
Definition py_max (l : list nat) : result nat :=
  match l with
  | [] => Raise ValueError
  | x :: l' => Ok (foldl Nat.max x l')
  end.

Definition py_min (l : list nat) : result nat :=
  match l with
  | [] => Raise ValueError
  | x :: l' => Ok (foldl Nat.min x l')
  end.

(** Insertion of [x] in front of the first element whose key is not
    smaller: [x] stood before all of [l] in the input, so it stays before
    the elements with an equal key. *)
Fixpoint insert_by {A} (key : A -> nat) (x : A) (l : list A) : list A :=
  match l with
  | [] => [x]
  | y :: l' =>
      if decide (key x <= key y) then x :: y :: l' else y :: insert_by key x l'
  end.

(** [sorted(l, key=key)]: the stable sort of [l] by [key]. *)
Fixpoint sorted {A} (key : A -> nat) (l : list A) : list A :=
  match l with
  | [] => []
  | x :: l' => insert_by key x (sorted key l')
  end.

(** [random.choice(seq)]: [IndexError] on an empty sequence, otherwise the
    element at a drawn index below [len(seq)]; [r] is the raw draw. *)
Definition random_choice {A} (r : nat) (seq : list A) : result A :=
  match seq !! (r mod length seq) with
  | Some x => Ok x
  | None => Raise IndexError
  end.

(** ** update_words *)

(** [[i for i, c in enumerate(word) if ltr == c]], counting from [i]. *)
Fixpoint idxs_from (i : nat) (ltr : ascii) (word : string) : list nat :=
  match word with
  | EmptyString => []
  | String c rest =>
      if decide (ltr = c) then i :: idxs_from (S i) ltr rest
      else idxs_from (S i) ltr rest
  end.

Definition idxs (ltr : ascii) (word : string) : list nat := idxs_from 0 ltr word.

(** An item of [families]: the tuple of indices and the words of the family. *)
Abbreviation family := (list nat * list string)%type.

(** [families[key].append(word)] on a [defaultdict(list)]: a new key is
    entered last, with the one word. *)
Fixpoint fam_append (key : list nat) (word : string) (families : list family)
  : list family :=
  match families with
  | [] => [(key, [word])]
  | (k, f_words) :: rest =>
      if decide (k = key) then (k, f_words ++ [word]) :: rest
      else (k, f_words) :: fam_append key word rest
  end.

(** The loop of lines 85-87. *)
Definition build_families (legal_words : list string) (ltr : ascii) : list family :=
  foldl (fun families word => fam_append (idxs ltr word) word families) [] legal_words.

Definition longest_fams_of (families : list family) (longest_fam_len : nat)
  : list family :=
  filter (fun f : family => length f.2 = longest_fam_len) families.

Definition update_words (r : nat) (legal_words : list string) (ltr : ascii)
  : result (list string) :=
  let families := build_families legal_words ltr in
  longest_fam_len ← py_max ((fun f : family => length f.2) <$> families);
  let longest_fams := longest_fams_of families longest_fam_len in
  let fams_with_fewest_match := sorted (fun f : family => length f.1) longest_fams in
  fam_with_fewest_match ← random_choice r fams_with_fewest_match;
  Ok fam_with_fewest_match.2.

(** ** get_words *)

(** [get_words] on the lines of the word file; [word_len] is the answer
    [prompt_int] returns. *)
Definition get_words (lines : list string) (word_len : Z) : result (list string) :=
  let words := strip <$> lines in
  min_len ← py_min (String.length <$> words);
  max_len ← py_max (String.length <$> words);
  Ok (lower <$>
        filter (fun w => isalpha w = true ∧ Z.of_nat (String.length w) = word_len)
               words).

(** ** play *)

Record session := Session {
  words : list string;
  guessed_letters : gset ascii;
  nguesses_left : Z
}.

Inductive reject_reason :=
| NotOneLetter      (* "only one letter at a time!" *)
| AlreadyGuessed.   (* "you already guessed that!" *)

Inductive verdict := Correct | Wrong.

Inductive ending :=
| YouRock    (* won *)
| YouSuck.   (* lost *)

(** What one pass through the body of [while True] does with the state it
    started from. *)
Inductive turn_result :=
| Rejected (why : reject_reason)
| Continues (v : verdict) (ltr : ascii) (s : session) (word : string)
| Breaks (e : ending) (ltr : ascii) (s : session) (word : string)
| Crashes (e : exn).

(** [ltr in word] for a one-character [ltr]. *)
Definition in_word (ltr : ascii) (word : string) : bool :=
  bool_decide (ltr ∈ chars word).

(** [set(word) - guessed_letters] *)
Definition missing_letters (word : string) (guessed : gset ascii) : gset ascii :=
  list_to_set (chars word) ∖ guessed.

(** Lines 146-169, for a one-character [ltr] that was not guessed before. *)
Definition accept_guess (r : nat) (ltr : ascii) (s : session) : turn_result :=
  let guessed := {[ ltr ]} ∪ guessed_letters s in
  match update_words r (words s) ltr with
  | Raise e => Crashes e
  | Ok [] => Crashes IndexError
  | Ok ((word :: _) as ws) =>
      if in_word ltr word then
        let s' := Session ws guessed (nguesses_left s) in
        if decide (missing_letters word guessed = ∅) then Breaks YouRock ltr s' word
        else Continues Correct ltr s' word
      else
        let n := (nguesses_left s - 1)%Z in
        let s' := Session ws guessed n in
        if decide (n = 0%Z) then Breaks YouSuck ltr s' word
        else Continues Wrong ltr s' word
  end.

(** One pass through the loop body on the line [inp] typed by the player. *)
Definition turn (r : nat) (inp : string) (s : session) : turn_result :=
  match lower inp with
  | String ltr EmptyString =>
      if decide (ltr ∈ guessed_letters s) then Rejected AlreadyGuessed
      else accept_guess r ltr s
  | _ => Rejected NotOneLetter
  end.

(** What an accepted guess shows the player: the letter and the places
    where the printed word has it. *)
Definition shown : Type := ascii * list nat.

Inductive run :=
| Prompting (s : session) (log : list shown)
| GameOver (e : ending) (s : session) (word : string) (log : list shown)
| Traceback (e : exn).

(** The [while True] loop on the inputs typed so far, each with the draw
    its turn makes.  When the lines run out the loop stands at its prompt
    ([Prompting]); the end of the input stream itself, on which [input]
    raises, is not part of the model. *)
Fixpoint play_loop (inputs : list (nat * string)) (s : session) (log : list shown)
  : run :=
  match inputs with
  | [] => Prompting s log
  | (r, inp) :: rest =>
      match turn r inp s with
      | Rejected _ => play_loop rest s log
      | Continues _ ltr s' word => play_loop rest s' (log ++ [(ltr, idxs ltr word)])
      | Breaks e ltr s' word => GameOver e s' word (log ++ [(ltr, idxs ltr word)])
      | Crashes e => Traceback e
      end
  end.

(** [play]: the word list, then the loop from no guessed letter;
    [nguesses] is the answer [prompt_int] returns on line 126, taken as
    it is. *)
Definition play (lines : list string) (word_len nguesses : Z)
    (inputs : list (nat * string)) : run :=
  match get_words lines word_len with
  | Raise e => Traceback e
  | Ok ws => play_loop inputs (Session ws ∅ nguesses) []
  end.

(** The example of the comment on lines 80-81, in lower case as
    [get_words] delivers the words. *)
Definition scenario_A : list string :=
  ["foo"; "off"; "moo"; "ore"; "cat"; "dog"]%string.

(** ** prompt_int and the prompts of get_words *)

Section Prompt.

(** [int(n)] on the [str] typed at the prompt: [None] stands for its
    [ValueError]. *)
Variable py_int : string -> option Z.

(** [prompt_int] on the lines typed from here on: an empty line gives
    [default], a line [int] refuses is answered with a message and the
    prompt again.  The result is the integer and the lines not yet read;
    [None] when the lines run out with the prompt still open. *)
Fixpoint prompt_int (answers : list string) (default : Z) : option (Z * list string) :=
  match answers with
  | [] => None
  | a :: rest =>
      match a with
      | EmptyString => Some (default, rest)
      | _ =>
          match py_int a with
          | Some n => Some (n, rest)
          | None => prompt_int rest default
          end
      end
  end.

(** [get_words] with its prompt: the lengths are taken first, then the
    word length is asked with [min(max_len, 5)] as default. *)
Definition get_words_prompted (lines : list string) (answers : list string)
  : result (option (list string * list string)) :=
  let words := strip <$> lines in
  min_len ← py_min (String.length <$> words);
  max_len ← py_max (String.length <$> words);
  let suggest := Nat.min max_len 5 in
  match prompt_int answers (Z.of_nat suggest) with
  | None => Ok None
  | Some (word_len, rest) =>
      Ok (Some (lower <$>
                  filter (fun w => isalpha w = true ∧ Z.of_nat (String.length w) = word_len)
                         words,
                rest))
  end.

End Prompt.

(** ** The line printed after a turn *)

(** [sep.join(items)] *)
Fixpoint join (sep : string) (items : list string) : string :=
  match items with
  | [] => EmptyString
  | x :: rest =>
      match rest with
      | [] => x
      | _ => String.append x (String.append sep (join sep rest))
      end
  end.

(** [c if c in guessed_letters else "_"] *)
Definition show_char (guessed : gset ascii) (c : ascii) : string :=
  if decide (c ∈ guessed) then String c EmptyString else String "_" EmptyString.

(** Line 171: the word with the letters not guessed yet blanked. *)
Definition masked (word : string) (guessed : gset ascii) : string :=
  join (String " " EmptyString) (show_char guessed <$> chars word).

(** ** Specification vocabulary *)

(** The words of [ws] whose indices of [ltr] are [pat], in the order of [ws]. *)
Definition cell (ltr : ascii) (pat : list nat) (ws : list string) : list string :=
  filter (fun w => idxs ltr w = pat) ws.

(** What the grouping loop has built after the words [seen]. *)
Definition families_ok (ltr : ascii) (seen : list string) (fams : list family) : Prop :=
  NoDup fams.*1 /\
  (forall k f, (k, f) ∈ fams -> f = cell ltr k seen /\ f <> []) /\
  (forall w, w ∈ seen -> idxs ltr w ∈ fams.*1).

(** The letter, state and displayed word of a pass that took the guess. *)
Definition accepted (t : turn_result) : option (ascii * session * string) :=
  match t with
  | Continues _ ltr s' word | Breaks _ ltr s' word => Some (ltr, s', word)
  | Rejected _ | Crashes _ => None
  end.

(** The state and log a run has arrived at, if it did not die. *)
Definition run_state (x : run) : option (session * list shown) :=
  match x with
  | Prompting s log | GameOver _ s _ log => Some (s, log)
  | Traceback _ => None
  end.

(** A line that [prompt_int] answers with its message and the prompt
    again: not empty, and refused by [int]. *)
Definition refused (py_int : string -> option Z) (a : string) : Prop :=
  a <> EmptyString /\ py_int a = None.

(** The wrong guesses of a log: the entries that show no place. *)
Definition misses (log : list shown) : list shown :=
  filter (fun x : shown => x.2 = []) log.

(** The number of words in all families. *)
Definition total_size (fams : list family) : nat :=
  sum_list ((fun f : family => length f.2) <$> fams).

(** Two words have the letter at the same places: stated on the
    characters themselves, not through [idxs]. *)
Definition same_places (ltr : ascii) (w1 w2 : string) : Prop :=
  forall i, chars w1 !! i = Some ltr <-> chars w2 !! i = Some ltr.

(** All words of a list have one length. *)
Definition same_length (ws : list string) : Prop :=
  forall w1 w2, w1 ∈ ws -> w2 ∈ ws -> String.length w1 = String.length w2.

(** What the loop printed as its verdicts, in order: the letter of each
    turn that took a guess with the "correct" or "wrong" of lines 159 and
    165. *)
Fixpoint said (inputs : list (nat * string)) (s : session) : list (ascii * verdict) :=
  match inputs with
  | [] => []
  | (r, inp) :: rest =>
      match turn r inp s with
      | Rejected _ => said rest s
      | Continues v ltr s' _ => (ltr, v) :: said rest s'
      | Breaks YouRock ltr _ _ => [(ltr, Correct)]
      | Breaks YouSuck ltr _ _ => [(ltr, Wrong)]
      | Crashes _ => []
      end
  end.

(** What holds of state and log throughout a game that started with
    [n] guesses and no guessed letter. *)
Definition game_inv (n : Z) (s : session) (log : list shown) : Prop :=
  nguesses_left s = (n - Z.of_nat (length (misses log)))%Z /\
  NoDup log.*1 /\
  (forall c, c ∈ guessed_letters s <-> c ∈ log.*1) /\
  (forall c pat w, (c, pat) ∈ log -> w ∈ words s -> idxs c w = pat) /\
  (words s = [] -> log = []).

(** Every candidate still has a letter that was not guessed. *)
Definition all_open (s : session) : Prop :=
  forall w, w ∈ words s -> missing_letters w (guessed_letters s) <> ∅.

(** Two characters at the same place agree as soon as one of them is a
    guessed letter. *)
Definition agree_on (guessed : gset ascii) (c1 c2 : ascii) : Prop :=
  c1 ∈ guessed \/ c2 ∈ guessed -> c1 = c2.

(** * Properties *)

(** ** Sequences *)

Lemma foldl_max_bounds (l : list nat) (x : nat) :
  x <= foldl Nat.max x l /\ (forall y, y ∈ l -> y <= foldl Nat.max x l) /\
  (foldl Nat.max x l = x \/ foldl Nat.max x l ∈ l).
Proof.
  revert x. induction l as [|a l IH]; intros x; simpl.
  - split; [lia|]. split; [|by left]. intros y Hy. by apply not_elem_of_nil in Hy.
  - destruct (IH (Nat.max x a)) as (Hle & Hall & Hin). split; [lia|]. split.
    + intros y [->|Hy]%elem_of_cons; [lia|by apply Hall].
    + destruct Hin as [Heq|Hin].
      * rewrite Heq. destruct (Nat.max_spec x a) as [[_ ->]|[_ ->]]; [right; left|by left].
      * right. by right.
Qed.

Lemma py_max_spec (l : list nat) :
  l <> [] ->
  exists m, py_max l = Ok m /\ m ∈ l /\ forall y, y ∈ l -> y <= m.
Proof.
  destruct l as [|x l]; [done|]. intros _. exists (foldl Nat.max x l).
  destruct (foldl_max_bounds l x) as (Hle & Hall & Hin). split; [done|]. split.
  - destruct Hin as [->|Hin]; [left|by right].
  - intros y [->|Hy]%elem_of_cons; [done|by apply Hall].
Qed.

Lemma insert_by_perm {A} (key : A -> nat) (x : A) (l : list A) :
  insert_by key x l ≡ₚ x :: l.
Proof.
  induction l as [|y l IH]; simpl; [done|].
  case_decide; [done|]. rewrite IH. apply Permutation_swap.
Qed.

Lemma sorted_perm {A} (key : A -> nat) (l : list A) : sorted key l ≡ₚ l.
Proof.
  induction l as [|x l IH]; simpl; [done|]. by rewrite insert_by_perm, IH.
Qed.

Lemma random_choice_elem {A} (r : nat) (seq : list A) :
  seq <> [] -> exists x, random_choice r seq = Ok x /\ x ∈ seq.
Proof.
  intros Hne. unfold random_choice.
  assert (r mod length seq < length seq) as Hlt.
  { apply Nat.mod_upper_bound. destruct seq; simpl; [done|lia]. }
  apply lookup_lt_is_Some_2 in Hlt as [x Hx]. exists x. rewrite Hx.
  split; [done|]. by eapply list_elem_of_lookup_2.
Qed.

(** Every index of a non-empty sequence is the outcome of some draw. *)
Lemma random_choice_any {A} (seq : list A) (i : nat) (x : A) :
  seq !! i = Some x -> random_choice i seq = Ok x.
Proof.
  intros Hx. unfold random_choice.
  rewrite Nat.mod_small; [by rewrite Hx|]. by eapply lookup_lt_Some.
Qed.

(** ** Families *)

Lemma fam_append_keys (key : list nat) (word : string) (fams : list family) :
  (fam_append key word fams).*1 =
  if decide (key ∈ fams.*1) then fams.*1 else fams.*1 ++ [key].
Proof.
  induction fams as [|[k f] fams IH]; [done|]. cbn [fam_append].
  destruct (decide (k = key)) as [->|Hne]; rewrite !fmap_cons; cbn [fst].
  - rewrite decide_True; [done|]. left.
  - rewrite IH. destruct (decide (key ∈ fams.*1)) as [Hin|Hnin].
    + rewrite decide_True; [done|]. by right.
    + rewrite decide_False; [done|]. intros [?|?]%elem_of_cons; congruence.
Qed.

Lemma fam_append_elem (key : list nat) (word : string) (fams : list family)
    (k : list nat) (f : list string) :
  NoDup fams.*1 ->
  (k, f) ∈ fam_append key word fams ->
  (k <> key /\ (k, f) ∈ fams) \/
  (k = key /\ exists f0, (key, f0) ∈ fams /\ f = f0 ++ [word]) \/
  (k = key /\ (key ∉ fams.*1) /\ f = [word]).
Proof.
  induction fams as [|[k0 f0] fams IH]; simpl; intros Hnd Hin.
  - apply list_elem_of_singleton in Hin. injection Hin as -> ->.
    right; right. split; [done|]. split; [apply not_elem_of_nil|done].
  - apply NoDup_cons in Hnd as [Hk0 Hnd].
    destruct (decide (k0 = key)) as [->|Hne].
    + apply elem_of_cons in Hin as [Heq|Hin].
      * injection Heq as -> ->. right; left. split; [done|]. exists f0. split; [left|done].
      * left. split; [|by right]. intros ->. apply Hk0.
        by apply (list_elem_of_fmap_2 fst) in Hin.
    + apply elem_of_cons in Hin as [Heq|Hin].
      * injection Heq as -> ->. left. split; [done|left].
      * destruct (IH Hnd Hin) as [[? ?]|[[-> (f1 & ? & ->)]|(-> & Hnin & ->)]].
        -- left. split; [done|by right].
        -- right; left. split; [done|]. exists f1. split; [by right|done].
        -- right; right. split; [done|]. split; [|done].
           intros [?|?]%elem_of_cons; [congruence|done].
Qed.

Lemma families_ok_step (ltr : ascii) (seen : list string) (fams : list family)
    (word : string) :
  families_ok ltr seen fams ->
  families_ok ltr (seen ++ [word]) (fam_append (idxs ltr word) word fams).
Proof.
  intros (Hnd & Hcells & Hkeys). split; [|split].
  - rewrite fam_append_keys. case_decide; [done|].
    apply NoDup_app. split; [done|]. split; [|apply NoDup_singleton].
    intros x Hx Hx'%list_elem_of_singleton. by subst x.
  - intros k f Hin. unfold cell. rewrite filter_app.
    destruct (fam_append_elem _ _ _ _ _ Hnd Hin)
      as [[Hne Hin']|[[-> (f0 & Hin' & ->)]|(-> & Hnin & ->)]].
    + destruct (Hcells _ _ Hin') as [-> Hnon]. split; [|done].
      rewrite (filter_cons _ word), decide_False by done.
      by rewrite filter_nil, app_nil_r.
    + destruct (Hcells _ _ Hin') as [-> Hnon].
      rewrite (filter_cons _ word), decide_True by done.
      rewrite filter_nil. split; [done|]. by intros [? ?]%app_eq_nil.
    + rewrite (filter_cons _ word), decide_True by done. rewrite filter_nil.
      split; [|done].
      destruct (filter (fun w => idxs ltr w = idxs ltr word) seen) as [|w l] eqn:Hf;
        [done|].
      assert (w ∈ filter (fun w => idxs ltr w = idxs ltr word) seen) as Hw
        by (rewrite Hf; left).
      apply list_elem_of_filter in Hw as [Heq Hw]. apply Hkeys in Hw.
      rewrite Heq in Hw. done.
  - intros w Hw. rewrite fam_append_keys.
    apply elem_of_app in Hw as [Hw|Hw%list_elem_of_singleton].
    + apply Hkeys in Hw. case_decide; [done|]. apply elem_of_app. by left.
    + subst w. case_decide; [done|]. apply elem_of_app. right. left.
Qed.

Lemma foldl_families_ok (ltr : ascii) (ws seen : list string) (fams : list family) :
  families_ok ltr seen fams ->
  families_ok ltr (seen ++ ws)
    (foldl (fun families word => fam_append (idxs ltr word) word families) fams ws).
Proof.
  revert seen fams. induction ws as [|w ws IH]; intros seen fams Hok; simpl.
  - by rewrite app_nil_r.
  - rewrite (cons_middle w seen ws), app_assoc. apply IH.
    by apply families_ok_step.
Qed.

Lemma build_families_ok (ws : list string) (ltr : ascii) :
  families_ok ltr ws (build_families ws ltr).
Proof.
  apply (foldl_families_ok ltr ws [] []).
  split; [apply NoDup_nil_2|]. split.
  - intros k f Hin. by apply not_elem_of_nil in Hin.
  - intros w Hin. by apply not_elem_of_nil in Hin.
Qed.

Lemma result_bind_Ok {A B} (f : A -> result B) (a : A) : (Ok a ≫= f) = f a.
Proof. reflexivity. Qed.

(** ** update_words on a non-empty list *)

(** The list returned is a whole family of the input, of the largest size. *)
Lemma update_words_spec (r : nat) (ws : list string) (ltr : ascii) :
  ws <> [] ->
  exists pat,
    update_words r ws ltr = Ok (cell ltr pat ws) /\
    (pat, cell ltr pat ws) ∈ build_families ws ltr /\
    cell ltr pat ws <> [] /\
    forall pat', length (cell ltr pat' ws) <= length (cell ltr pat ws).
Proof.
  intros Hne.
  destruct (build_families_ok ws ltr) as (Hnd & Hcells & Hkeys).
  set (F := build_families ws ltr) in *.
  assert ((fun f : family => length f.2) <$> F <> []) as HF.
  { destruct ws as [|w ws]; [done|].
    assert (idxs ltr w ∈ F.*1) as Hw by (apply Hkeys; left).
    destruct F; [|done]. by apply not_elem_of_nil in Hw. }
  destruct (py_max_spec _ HF) as (m & Hmax & Hm & Hub).
  unfold update_words. fold F. rewrite Hmax, result_bind_Ok.
  set (L := longest_fams_of F m).
  assert (sorted (fun f : family => length f.1) L <> []) as HL.
  { apply list_elem_of_fmap in Hm as (f & Hlen & Hf).
    assert (f ∈ sorted (fun f : family => length f.1) L) as Hin.
    { rewrite sorted_perm. apply list_elem_of_filter. by split. }
    intros Heq. rewrite Heq in Hin. by apply not_elem_of_nil in Hin. }
  destruct (random_choice_elem r _ HL) as ([pat g] & Hch & Hin).
  rewrite Hch, result_bind_Ok. simpl.
  rewrite sorted_perm in Hin. apply list_elem_of_filter in Hin as [Hlen Hin].
  simpl in Hlen. destruct (Hcells _ _ Hin) as [Hg Hnon]. subst g.
  exists pat. split; [done|]. split; [done|]. split; [done|].
  intros pat'. destruct (cell ltr pat' ws) as [|w l] eqn:Hc; [simpl; lia|].
  assert (w ∈ cell ltr pat' ws) as Hw by (rewrite Hc; left).
  apply list_elem_of_filter in Hw as [Hpat Hw]. apply Hkeys in Hw.
  rewrite Hpat in Hw. apply list_elem_of_fmap in Hw as ([k f] & Hk & Hf).
  simpl in Hk. subst k. destruct (Hcells _ _ Hf) as [-> _].
  rewrite <- Hc, Hlen. apply Hub.
  by apply (list_elem_of_fmap_2 (fun f : family => length f.2)) in Hf.
Qed.

Lemma update_words_nil (r : nat) (ltr : ascii) : update_words r [] ltr = Raise ValueError.
Proof. reflexivity. Qed.

Lemma update_words_Ok_inv (r : nat) (ws : list string) (ltr : ascii) (g : list string) :
  update_words r ws ltr = Ok g ->
  ws <> [] /\
  exists pat,
    g = cell ltr pat ws /\ g <> [] /\ (pat, g) ∈ build_families ws ltr /\
    forall pat', length (cell ltr pat' ws) <= length g.
Proof.
  intros Hg. assert (ws <> []) as Hne.
  { intros ->. by rewrite update_words_nil in Hg. }
  split; [done|].
  destruct (update_words_spec r ws ltr Hne) as (pat & Hupd & Hin & Hnon & Hmax).
  rewrite Hupd in Hg. injection Hg as <-. by exists pat.
Qed.

(** Every family of the largest size is returned for some draw, whatever
    the number of indices in its key. *)
Lemma update_words_any_largest (ws : list string) (ltr : ascii)
    (pat : list nat) (g : list string) :
  (pat, g) ∈ build_families ws ltr ->
  (forall pat', length (cell ltr pat' ws) <= length g) ->
  exists r, update_words r ws ltr = Ok g.
Proof.
  intros Hin Hmax.
  destruct (build_families_ok ws ltr) as (Hnd & Hcells & Hkeys).
  set (F := build_families ws ltr) in *.
  assert ((fun f : family => length f.2) <$> F <> []) as HF.
  { destruct F; [|done]. by apply not_elem_of_nil in Hin. }
  destruct (py_max_spec _ HF) as (m & Hpm & Hm & Hub).
  assert (length g = m) as Hlen.
  { apply Nat.le_antisymm.
    - apply Hub. by apply (list_elem_of_fmap_2 (fun f : family => length f.2)) in Hin.
    - apply list_elem_of_fmap in Hm as ([k f] & -> & Hf). simpl.
      destruct (Hcells _ _ Hf) as [-> _]. apply Hmax. }
  assert ((pat, g) ∈ sorted (fun f : family => length f.1) (longest_fams_of F m)) as Hs.
  { rewrite sorted_perm. apply list_elem_of_filter. by split. }
  apply list_elem_of_lookup_1 in Hs as [i Hi]. exists i.
  unfold update_words. fold F. rewrite Hpm, result_bind_Ok.
  by rewrite (random_choice_any _ _ _ Hi), result_bind_Ok.
Qed.

Lemma cell_sublist (ltr : ascii) (pat : list nat) (ws : list string) :
  cell ltr pat ws `sublist_of` ws.
Proof. apply sublist_filter. Qed.

Lemma elem_of_cell (ltr : ascii) (pat : list nat) (ws : list string) (w : string) :
  w ∈ cell ltr pat ws <-> w ∈ ws /\ idxs ltr w = pat.
Proof. unfold cell. rewrite list_elem_of_filter. tauto. Qed.

(** With two families or more, the returned one leaves a word out. *)
Lemma update_words_shrinks (r : nat) (ws : list string) (ltr : ascii) (g : list string) :
  update_words r ws ltr = Ok g ->
  g `sublist_of` ws /\
  (1 < length (build_families ws ltr) -> length g < length ws).
Proof.
  intros (Hne & pat & -> & Hnon & Hin & Hmax)%update_words_Ok_inv.
  split; [apply cell_sublist|]. intros Hmany.
  destruct (build_families_ok ws ltr) as (Hnd & Hcells & Hkeys).
  assert (exists k f, (k, f) ∈ build_families ws ltr /\ k <> pat) as (k & f & Hkf & Hk).
  { destruct (build_families ws ltr) as [|[k1 f1] [|[k2 f2] F]]; simpl in Hmany; [lia..|].
    rewrite !fmap_cons in Hnd. simpl in Hnd.
    destruct (decide (k1 = pat)) as [->|Hk1].
    - exists k2, f2. split; [right; left|]. intros ->.
      apply NoDup_cons in Hnd as [Hnd _]. apply Hnd. left.
    - exists k1, f1. split; [left|done]. }
  destruct (Hcells _ _ Hkf) as [-> Hf].
  destruct (cell ltr k ws) as [|w l] eqn:Hc; [done|].
  assert (w ∈ cell ltr k ws) as Hw by (rewrite Hc; left).
  apply elem_of_cell in Hw as [Hw Hidx].
  apply (length_filter_lt _ _ w); [done|congruence].
Qed.

(** ** Letters and indices *)

Lemma idxs_from_nil_iff (i : nat) (ltr : ascii) (w : string) :
  idxs_from i ltr w = [] <-> ltr ∉ chars w.
Proof.
  revert i. induction w as [|c w IH]; intros i; simpl.
  - split; [intros _; apply not_elem_of_nil|done].
  - case_decide as Hc.
    + subst c. split; [done|]. intros Hn. exfalso. apply Hn. left.
    + rewrite IH. split.
      * intros Hn [?|?]%elem_of_cons; congruence.
      * intros Hn Hin. apply Hn. by right.
Qed.

Lemma in_word_false_iff (ltr : ascii) (w : string) :
  in_word ltr w = false <-> idxs ltr w = [].
Proof.
  unfold in_word, idxs. rewrite idxs_from_nil_iff. apply bool_decide_eq_false.
Qed.

Lemma in_word_true_iff (ltr : ascii) (w : string) :
  in_word ltr w = true <-> idxs ltr w <> [].
Proof.
  rewrite <- in_word_false_iff. destruct (in_word ltr w); split; congruence.
Qed.

Lemma lower_char_idemp (c : ascii) : lower_char (lower_char c) = lower_char c.
Proof. destruct c as [[] [] [] [] [] [] [] []]; reflexivity. Qed.

(** ** One pass through the loop *)

Lemma turn_one_letter (r : nat) (inp : string) (s : session) (ltr : ascii) :
  lower inp = String ltr EmptyString ->
  turn r inp s =
  if decide (ltr ∈ guessed_letters s) then Rejected AlreadyGuessed
  else accept_guess r ltr s.
Proof. intros Hl. unfold turn. by rewrite Hl. Qed.

Lemma turn_not_one_letter (r : nat) (inp : string) (s : session) :
  String.length (lower inp) <> 1 -> turn r inp s = Rejected NotOneLetter.
Proof.
  intros Hl. unfold turn. destruct (lower inp) as [|c [|c' rest]]; simpl in *; done.
Qed.

Lemma accept_guess_Ok (r : nat) (ltr : ascii) (s : session)
    (word : string) (rest : list string) :
  update_words r (words s) ltr = Ok (word :: rest) ->
  accept_guess r ltr s =
  let guessed := {[ ltr ]} ∪ guessed_letters s in
  if in_word ltr word then
    if decide (missing_letters word guessed = ∅)
    then Breaks YouRock ltr (Session (word :: rest) guessed (nguesses_left s)) word
    else Continues Correct ltr (Session (word :: rest) guessed (nguesses_left s)) word
  else
    if decide ((nguesses_left s - 1)%Z = 0%Z)
    then Breaks YouSuck ltr (Session (word :: rest) guessed (nguesses_left s - 1)) word
    else Continues Wrong ltr (Session (word :: rest) guessed (nguesses_left s - 1)) word.
Proof. intros Hupd. unfold accept_guess. by rewrite Hupd. Qed.

Lemma turn_accepted_inv (r : nat) (inp : string) (s : session)
    (ltr : ascii) (s' : session) (word : string) :
  accepted (turn r inp s) = Some (ltr, s', word) ->
  lower inp = String ltr EmptyString /\ (ltr ∉ guessed_letters s) /\
  exists rest,
    update_words r (words s) ltr = Ok (word :: rest) /\
    s' = Session (word :: rest) ({[ ltr ]} ∪ guessed_letters s)
           (if in_word ltr word then nguesses_left s else (nguesses_left s - 1)%Z).
Proof.
  unfold turn. destruct (lower inp) as [|c [|c' rest]]; simpl; [done| |done].
  case_decide as Hg; simpl; [done|]. unfold accept_guess.
  destruct (update_words r (words s) c) as [[|w ws]|e] eqn:Hupd; simpl; [done| |done].
  destruct (in_word c w) eqn:Hw; case_decide; simpl; intros [= <- <- <-];
    rewrite ?Hw; (split; [done|split; [done|by exists ws]]).
Qed.

(** On a non-empty candidate list a pass never dies: it rejects the
    input or takes the guess. *)
Lemma turn_total (r : nat) (inp : string) (s : session) :
  words s <> [] ->
  (exists why, turn r inp s = Rejected why) \/
  (exists ltr s' word, accepted (turn r inp s) = Some (ltr, s', word)).
Proof.
  intros Hne. unfold turn. destruct (lower inp) as [|c [|c' rest]]; [by left; eexists| |by left; eexists].
  case_decide; [by left; eexists|]. right.
  destruct (update_words_spec r (words s) c Hne) as (pat & Hupd & _ & Hnon & _).
  destruct (cell c pat (words s)) as [|w ws]; [done|].
  rewrite (accept_guess_Ok _ _ _ _ _ Hupd). simpl.
  destruct (in_word c w); case_decide; simpl; by repeat eexists.
Qed.

Lemma turn_lost_inv (r : nat) (inp : string) (s : session)
    (ltr : ascii) (s' : session) (word : string) :
  turn r inp s = Breaks YouSuck ltr s' word ->
  nguesses_left s = 1%Z /\ nguesses_left s' = 0%Z.
Proof.
  unfold turn. destruct (lower inp) as [|c [|c' rest]]; [done| |done].
  case_decide; [done|]. unfold accept_guess.
  destruct (update_words r (words s) c) as [[|w ws]|e]; [done| |done].
  destruct (in_word c w); case_decide; try done.
  intros [= <- <- <-]. simpl. lia.
Qed.

(** ** The loop *)

Lemma play_loop_app (xs ys : list (nat * string)) (s : session) (log : list shown) :
  play_loop (xs ++ ys) s log =
  match play_loop xs s log with
  | Prompting s' log' => play_loop ys s' log'
  | other => other
  end.
Proof.
  revert s log. induction xs as [|[r inp] xs IH]; intros s log; simpl; [done|].
  destruct (turn r inp s); auto.
Qed.

(** A property of state and log that every taken guess preserves holds
    wherever the loop arrives. *)
Lemma play_loop_invariant (P : session -> list shown -> Prop) :
  (forall r inp s log ltr s' word,
      P s log -> accepted (turn r inp s) = Some (ltr, s', word) ->
      P s' (log ++ [(ltr, idxs ltr word)])) ->
  forall inputs s log s1 log1,
    P s log -> run_state (play_loop inputs s log) = Some (s1, log1) -> P s1 log1.
Proof.
  intros Hstep inputs. induction inputs as [|[r inp] inputs IH]; intros s log s1 log1 HP; simpl.
  - by intros [= <- <-].
  - destruct (turn r inp s) as [why|v ltr s' word|e ltr s' word|e] eqn:Ht; simpl.
    + by apply IH.
    + apply IH. apply (Hstep r inp s); [done|by rewrite Ht].
    + intros [= <- <-]. apply (Hstep r inp s); [done|by rewrite Ht].
    + done.
Qed.

Lemma play_loop_total (inputs : list (nat * string)) (s : session) (log : list shown) :
  words s <> [] ->
  exists s1 log1, run_state (play_loop inputs s log) = Some (s1, log1).
Proof.
  revert s log. induction inputs as [|[r inp] inputs IH]; intros s log Hne; simpl.
  - by repeat eexists.
  - destruct (turn_total r inp s Hne) as [[why Ht]|(ltr & s' & word & Ht)].
    + rewrite Ht. by apply IH.
    + pose proof Ht as Hinv. apply turn_accepted_inv in Hinv as (_ & _ & rest & _ & ->).
      destruct (turn r inp s); simpl in Ht; try done; injection Ht as -> -> ->.
      * by apply IH.
      * simpl. by repeat eexists.
Qed.

Lemma lower_one_letter (c : ascii) :
  lower (String c EmptyString) = String (lower_char c) EmptyString.
Proof. reflexivity. Qed.

(** With no occurrence of [ltr] the grouping loop keeps one family. *)
Lemma foldl_one_family (ltr : ascii) (ws seen : list string) :
  (forall w, w ∈ ws -> idxs ltr w = []) ->
  foldl (fun families word => fam_append (idxs ltr word) word families)
        [([], seen)] ws = [([], seen ++ ws)].
Proof.
  revert seen. induction ws as [|w ws IH]; intros seen Hall; simpl.
  - by rewrite app_nil_r.
  - rewrite (Hall w) by left. rewrite decide_True by done.
    rewrite IH; [by rewrite <- app_assoc|]. intros w' Hw'. apply Hall. by right.
Qed.

Lemma build_families_absent (ltr : ascii) (ws : list string) :
  ws <> [] -> (forall w, w ∈ ws -> idxs ltr w = []) ->
  build_families ws ltr = [([], ws)].
Proof.
  destruct ws as [|w ws]; [done|]. intros _ Hall. unfold build_families. simpl.
  rewrite (Hall w) by left. simpl. apply (foldl_one_family ltr ws [w]).
  intros w' Hw'. apply Hall. by right.
Qed.

Lemma play_loop_never_lost (inputs : list (nat * string)) (s : session)
    (log : list shown) (e : ending) (s1 : session) (word : string) (log1 : list shown) :
  (nguesses_left s <= 0)%Z ->
  play_loop inputs s log = GameOver e s1 word log1 -> e = YouRock.
Proof.
  revert s log. induction inputs as [|[r inp] inputs IH]; intros s log Hn; simpl; [done|].
  destruct (turn r inp s) as [why|v ltr s' w|e' ltr s' w|e'] eqn:Ht.
  - by apply IH.
  - apply IH. assert (accepted (turn r inp s) = Some (ltr, s', w)) as Ha by by rewrite Ht.
    apply turn_accepted_inv in Ha as (_ & _ & rest & _ & ->). simpl.
    destruct (in_word ltr w); lia.
  - intros [= <- <- <- <-]. destruct e'; [done|].
    apply turn_lost_inv in Ht as [? _]. lia.
  - done.
Qed.

Lemma accept_guess_not_rejected (r : nat) (ltr : ascii) (s : session) (why : reject_reason) :
  accept_guess r ltr s <> Rejected why.
Proof.
  unfold accept_guess.
  destruct (update_words r (words s) ltr) as [[|w ws]|e]; [done| |done].
  destruct (in_word ltr w); case_decide; done.
Qed.

Lemma lower_one_letter_fixed (inp : string) (ltr : ascii) :
  lower inp = String ltr EmptyString -> lower_char ltr = ltr.
Proof.
  destruct inp as [|c [|c' rest]]; simpl; [done| |done].
  intros [= <-]. apply lower_char_idemp.
Qed.


(** ** The places of a letter *)

Lemma idxs_from_ge (i : nat) (ltr : ascii) (w : string) (x : nat) :
  x ∈ idxs_from i ltr w -> i <= x.
Proof.
  revert i. induction w as [|c w IH]; intros i; simpl.
  - intros Hx. by apply not_elem_of_nil in Hx.
  - case_decide.
    + intros [->|Hx%IH]%elem_of_cons; lia.
    + intros Hx%IH. lia.
Qed.

Lemma idxs_from_spec (i : nat) (ltr : ascii) (w : string) (j : nat) :
  j ∈ idxs_from i ltr w <-> i <= j /\ chars w !! (j - i) = Some ltr.
Proof.
  revert i. induction w as [|c w IH]; intros i.
  - simpl. split; [intros Hj; by apply not_elem_of_nil in Hj|by intros [_ ?]].
  - change (chars (String c w)) with (c :: chars w). cbn [idxs_from].
    destruct (decide (j = i)) as [->|Hji].
    + rewrite Nat.sub_diag. simpl. case_decide as Hc.
      * subst c. split; [done|]. intros _. left.
      * split.
        -- intros Hj%idxs_from_ge. lia.
        -- intros [_ [= ->]]. done.
    + assert (forall l : list nat, j ∈ i :: l <-> j ∈ l) as Hskip.
      { intros l. rewrite elem_of_cons. split; [by intros [?|?]|by right]. }
      assert (j ∈ idxs_from (S i) ltr w <-> i <= j /\ (c :: chars w) !! (j - i) = Some ltr)
        as Htail.
      { rewrite IH. split.
        - intros [Hle Hl]. split; [lia|].
          replace (j - i) with (S (j - S i)) by lia. done.
        - intros [Hle Hl]. split; [lia|].
          replace (j - i) with (S (j - S i)) in Hl by lia. done. }
      case_decide; [rewrite Hskip|]; exact Htail.
Qed.

(** [idxs] lists exactly the places at which the word has the letter. *)
Lemma idxs_spec (ltr : ascii) (w : string) (j : nat) :
  j ∈ idxs ltr w <-> chars w !! j = Some ltr.
Proof.
  unfold idxs. rewrite idxs_from_spec, Nat.sub_0_r. split; [by intros [_ ?]|].
  intros H. split; [lia|done].
Qed.

Lemma idxs_from_sorted (i : nat) (ltr : ascii) (w : string) :
  StronglySorted lt (idxs_from i ltr w).
Proof.
  revert i. induction w as [|c w IH]; intros i; simpl; [constructor|].
  case_decide; [|apply IH]. constructor; [apply IH|].
  apply Forall_forall. intros x Hx%idxs_from_ge. lia.
Qed.

Lemma sorted_lt_ext (l1 l2 : list nat) :
  StronglySorted lt l1 -> StronglySorted lt l2 ->
  (forall x, x ∈ l1 <-> x ∈ l2) -> l1 = l2.
Proof.
  intros H1. revert l2. induction H1 as [|x l1 H1 IH Hx]; intros l2 H2 Hiff.
  - destruct l2 as [|y l2]; [done|]. exfalso.
    apply (not_elem_of_nil y), Hiff. left.
  - destruct H2 as [|y l2 H2 Hy].
    { exfalso. apply (not_elem_of_nil x), Hiff. left. }
    rewrite Forall_forall in Hx. rewrite Forall_forall in Hy.
    assert (x = y) as <-.
    { assert (x ∈ y :: l2) as Hxin by (apply Hiff; left).
      assert (y ∈ x :: l1) as Hyin by (apply Hiff; left).
      apply elem_of_cons in Hxin as [?|Hxin]; [done|].
      apply elem_of_cons in Hyin as [?|Hyin]; [done|].
      pose proof (Hx _ Hyin). pose proof (Hy _ Hxin). lia. }
    f_equal. apply IH; [done|]. intros z. split.
    + intros Hz. assert (z ∈ x :: l2) as Hz' by (apply Hiff; by right).
      apply elem_of_cons in Hz' as [->|?]; [|done].
      pose proof (Hx _ Hz). lia.
    + intros Hz. assert (z ∈ x :: l1) as Hz' by (apply Hiff; by right).
      apply elem_of_cons in Hz' as [->|?]; [|done].
      pose proof (Hy _ Hz). lia.
Qed.

(** Equal index tuples say the same as: the letter at the same places. *)
Lemma idxs_eq_iff (ltr : ascii) (w1 w2 : string) :
  idxs ltr w1 = idxs ltr w2 <-> same_places ltr w1 w2.
Proof.
  split.
  - intros Heq i. by rewrite <- !idxs_spec, Heq.
  - intros Hsame. apply sorted_lt_ext; [apply idxs_from_sorted..|].
    intros x. rewrite !idxs_spec. apply Hsame.
Qed.

Lemma sublist_into_filter {A} (P : A -> Prop) `{!forall x, Decision (P x)}
    (l ws : list A) :
  l `sublist_of` ws -> (forall x, x ∈ l -> P x) -> l `sublist_of` filter P ws.
Proof.
  induction 1 as [|x l ws Hsub IH|x l ws Hsub IH]; intros Hall.
  - constructor.
  - rewrite filter_cons, decide_True by (apply Hall; left).
    constructor. apply IH. intros y Hy. apply Hall. by right.
  - rewrite filter_cons. case_decide; [constructor|]; by apply IH.
Qed.

Lemma turn_continues_inv (r : nat) (inp : string) (s : session) (v : verdict)
    (ltr : ascii) (s' : session) (word : string) :
  turn r inp s = Continues v ltr s' word ->
  match v with
  | Correct => in_word ltr word = true /\ missing_letters word (guessed_letters s') <> ∅
  | Wrong => in_word ltr word = false /\ nguesses_left s' <> 0%Z
  end.
Proof.
  unfold turn. destruct (lower inp) as [|c [|c' rest]]; [done| |done].
  case_decide; [done|]. unfold accept_guess.
  destruct (update_words r (words s) c) as [[|w ws]|e]; [done| |done].
  destruct (in_word c w) eqn:Hw; case_decide; try done; by intros [= <- <- <- <-].
Qed.

Lemma turn_breaks_inv (r : nat) (inp : string) (s : session) (e : ending)
    (ltr : ascii) (s' : session) (word : string) :
  turn r inp s = Breaks e ltr s' word ->
  match e with
  | YouRock => in_word ltr word = true /\ missing_letters word (guessed_letters s') = ∅
  | YouSuck => in_word ltr word = false /\ nguesses_left s' = 0%Z
  end.
Proof.
  unfold turn. destruct (lower inp) as [|c [|c' rest]]; [done| |done].
  case_decide; [done|]. unfold accept_guess.
  destruct (update_words r (words s) c) as [[|w ws]|e0]; [done| |done].
  destruct (in_word c w) eqn:Hw; case_decide; try done; by intros [= <- <- <- <-].
Qed.

Lemma sublist_elem_of_l {A} (l1 l2 : list A) (x : A) :
  l1 `sublist_of` l2 -> x ∈ l1 -> x ∈ l2.
Proof. intros Hsub Hx. by eapply elem_of_sublist. Qed.

Lemma play_loop_sublist (inputs : list (nat * string)) (s : session) (log : list shown)
    (s1 : session) (log1 : list shown) :
  run_state (play_loop inputs s log) = Some (s1, log1) ->
  words s1 `sublist_of` words s.
Proof.
  intros Hrun.
  apply (play_loop_invariant (fun s' _ => words s' `sublist_of` words s)) in Hrun; [done| |done].
  clear. intros r inp s0 log ltr s' word Hsub (_ & _ & rest & Hupd & ->)%turn_accepted_inv.
  cbn [words]. apply update_words_shrinks in Hupd as [Hs _]. by etrans.
Qed.

(** After a pass that took the guess, the letter is in every remaining
    candidate or in none of them, as it is or is not in the word shown. *)
Lemma turn_letter_in_candidates (r : nat) (inp : string) (s : session)
    (ltr : ascii) (s' : session) (word : string) (w : string) :
  accepted (turn r inp s) = Some (ltr, s', word) -> w ∈ words s' ->
  (in_word ltr word = true -> ltr ∈ chars w) /\
  (in_word ltr word = false -> ltr ∉ chars w).
Proof.
  intros (_ & _ & rest & Hupd & ->)%turn_accepted_inv Hw. cbn [words] in Hw.
  apply update_words_Ok_inv in Hupd as (_ & pat & Hcell & _).
  assert (word ∈ cell ltr pat (words s)) as Hword by (rewrite <- Hcell; left).
  rewrite Hcell in Hw. apply elem_of_cell in Hw as [_ Hwp].
  apply elem_of_cell in Hword as [_ Hwordp].
  assert (idxs ltr w = idxs ltr word) as Heq by congruence.
  split.
  - intros Hin%in_word_true_iff. destruct (decide (ltr ∈ chars w)) as [|Hn]; [done|].
    exfalso. apply Hin. rewrite <- Heq. by apply (idxs_from_nil_iff 0).
  - intros Hin%in_word_false_iff. apply (idxs_from_nil_iff 0).
    change (idxs ltr w = []). congruence.
Qed.

(** The verdicts printed are the letters of the log, in order, and each
    verdict is true of every candidate of the state arrived at. *)
Lemma said_sound (inputs : list (nat * string)) (s0 : session) (log0 : list shown)
    (s : session) (log : list shown) :
  run_state (play_loop inputs s0 log0) = Some (s, log) ->
  log.*1 = log0.*1 ++ (said inputs s0).*1 /\
  forall c v w, (c, v) ∈ said inputs s0 -> w ∈ words s ->
    match v with Correct => c ∈ chars w | Wrong => c ∉ chars w end.
Proof.
  revert s0 log0. induction inputs as [|[r inp] inputs IH]; intros s0 log0; simpl.
  - intros [= <- <-]. rewrite app_nil_r. split; [done|].
    intros c v w Hin. by apply not_elem_of_nil in Hin.
  - destruct (turn r inp s0) as [why|v ltr s' word|e ltr s' word|e] eqn:Ht.
    + apply IH.
    + intros Hrun. destruct (IH _ _ Hrun) as [Hlog Hv]. split.
      * rewrite Hlog, fmap_app, fmap_cons, <- app_assoc. done.
      * intros c v0 w [[= -> ->]|Hin]%elem_of_cons Hw; [|by apply (Hv c v0 w)].
        apply play_loop_sublist in Hrun.
        apply (sublist_elem_of_l _ _ _ Hrun) in Hw.
        assert (accepted (turn r inp s0) = Some (ltr, s', word)) as Ha by (by rewrite Ht).
        destruct (turn_letter_in_candidates _ _ _ _ _ _ w Ha Hw) as [Hyes Hno].
        apply turn_continues_inv in Ht. destruct v; destruct Ht as [Hin _]; auto.
    + simpl. intros [= <- <-].
      assert (accepted (turn r inp s0) = Some (ltr, s', word)) as Ha by (by rewrite Ht).
      apply turn_breaks_inv in Ht. split.
      * rewrite fmap_app. by destruct e.
      * intros c v0 w Hin Hw.
        destruct (turn_letter_in_candidates _ _ _ _ _ _ w Ha Hw) as [Hyes Hno].
        destruct e; apply list_elem_of_singleton in Hin; injection Hin as -> ->;
          destruct Ht as [Hin _]; auto.
    + done.
Qed.

(** * The partition rule *)

(** C1: on the candidates foo, off, moo, ore, cat, dog and the letter o the
    grouping gives the four families of the comment in [update_words]; the
    two largest are sorted with the one-index family first, and then
    [random.choice] draws from that whole sorted list: draw 0 returns
    off, ore and draw 1 returns foo, moo, the family with two indices. *)
Theorem scenario_A_draw_over_all_largest :
  build_families scenario_A "o" =
    [([1; 2], ["foo"; "moo"]); ([0], ["off"; "ore"]); ([], ["cat"]); ([1], ["dog"])]%string /\
  update_words 0 scenario_A "o" = Ok ["off"; "ore"]%string /\
  update_words 1 scenario_A "o" = Ok ["foo"; "moo"]%string.
Proof. repeat split; vm_compute; reflexivity. Qed.

(** C2: on a non-empty candidate list, whatever the draw, [update_words]
    returns a non-empty sub-list of the input whose words all have the
    letter at exactly the same places and which holds every word of the
    input that has it there; and no group of words of the input that share
    their places of the letter has more words than the list returned. *)
Theorem update_words_returns_largest_cell (r : nat) (ws : list string) (ltr : ascii) :
  ws <> [] ->
  exists g,
    update_words r ws ltr = Ok g /\
    g <> [] /\
    g `sublist_of` ws /\
    (forall w1 w2, w1 ∈ g -> w2 ∈ g -> same_places ltr w1 w2) /\
    (forall w w0, w ∈ ws -> w0 ∈ g -> same_places ltr w w0 -> w ∈ g) /\
    (forall l, l `sublist_of` ws ->
       (forall w1 w2, w1 ∈ l -> w2 ∈ l -> same_places ltr w1 w2) ->
       length l <= length g).
Proof.
  intros Hne.
  destruct (update_words_spec r ws ltr Hne) as (pat & Hupd & _ & Hnon & Hmax).
  exists (cell ltr pat ws). split; [done|]. split; [done|].
  split; [apply cell_sublist|]. split; [|split].
  - intros w1 w2 [_ H1]%elem_of_cell [_ H2]%elem_of_cell.
    apply idxs_eq_iff. congruence.
  - intros w w0 Hw [_ H0]%elem_of_cell Hsame%idxs_eq_iff.
    apply elem_of_cell. split; [done|congruence].
  - intros l Hsub Hsame. destruct l as [|w1 l'] eqn:Hl; [simpl; lia|]. rewrite <- Hl in *.
    assert (w1 ∈ l) as Hw1 by (rewrite Hl; left).
    assert (l `sublist_of` cell ltr (idxs ltr w1) ws) as Hin.
    { apply sublist_into_filter; [done|]. intros w Hw.
      apply idxs_eq_iff. by apply Hsame. }
    apply sublist_length in Hin. pose proof (Hmax (idxs ltr w1)). lia.
Qed.

Lemma update_words_returns_largest_cell_witness :
  exists g,
    update_words 1 scenario_A "o" = Ok g /\
    g <> [] /\
    g `sublist_of` scenario_A /\
    (forall w1 w2, w1 ∈ g -> w2 ∈ g -> same_places "o" w1 w2) /\
    (forall w w0, w ∈ scenario_A -> w0 ∈ g -> same_places "o" w w0 -> w ∈ g) /\
    (forall l, l `sublist_of` scenario_A ->
       (forall w1 w2, w1 ∈ l -> w2 ∈ l -> same_places "o" w1 w2) ->
       length l <= length g).
Proof. apply (update_words_returns_largest_cell 1 scenario_A "o"). done. Defined.

(** On a non-empty list of words and any letter and draw, [update_words]
    returns a non-empty list; and a loop whose candidate list is non-empty
    when it starts never dies and has a non-empty candidate list in every
    state it arrives at. *)
Lemma nonempty_candidates_stay (r : nat) (ltr : ascii)
    (inputs : list (nat * string)) (s0 : session) (log0 : list shown) :
  words s0 <> [] ->
  (exists g, update_words r (words s0) ltr = Ok g /\ g <> []) /\
  (exists s log, run_state (play_loop inputs s0 log0) = Some (s, log) /\ words s <> []).
Proof.
  intros Hne. split.
  - destruct (update_words_spec r (words s0) ltr Hne) as (pat & Hupd & _ & Hnon & _).
    by exists (cell ltr pat (words s0)).
  - destruct (play_loop_total inputs s0 log0 Hne) as (s & log & Hrun).
    exists s, log. split; [done|].
    apply (play_loop_invariant (fun s _ => words s <> [])) in Hrun; [done| |done].
    intros r' inp s1 log1 c s' word _ (_ & _ & rest & _ & ->)%turn_accepted_inv. done.
Qed.

(** C3: the candidate list is not non-empty in every state after
    initialization: for the word file cat, horse and the requested length
    4, [get_words] returns the empty list, [play] starts its loop on it,
    and the state in which the loop prompts, before and after a rejected
    line, has no candidate. *)
Theorem candidates_empty_after_initialization :
  get_words ["cat"; "horse"]%string 4 = Ok [] /\
  play ["cat"; "horse"]%string 4 10 [] = Prompting (Session [] ∅ 10) [] /\
  play ["cat"; "horse"]%string 4 10 [(0, "ab"%string)] = Prompting (Session [] ∅ 10) [] /\
  words (Session [] ∅ 10) = [].
Proof. repeat split; vm_compute; reflexivity. Qed.

(** * The session *)

(** C4: in a game started with no guessed letter, in every state the loop
    arrives at, the guessed letters are exactly the letters of the log,
    which are the letters the loop gave its verdicts on; every remaining
    candidate contains each letter the loop called correct and none the
    loop called wrong; and every remaining candidate has each guessed
    letter at exactly the places shown when that letter was guessed. *)
Theorem candidates_consistent_with_guesses (inputs : list (nat * string))
    (ws : list string) (n : Z) (s : session) (log : list shown) :
  run_state (play_loop inputs (Session ws ∅ n) []) = Some (s, log) ->
  (said inputs (Session ws ∅ n)).*1 = log.*1 /\
  (forall c, c ∈ guessed_letters s <-> c ∈ log.*1) /\
  (forall c v w, (c, v) ∈ said inputs (Session ws ∅ n) -> w ∈ words s ->
     match v with Correct => c ∈ chars w | Wrong => c ∉ chars w end) /\
  (forall c pat w i, (c, pat) ∈ log -> w ∈ words s ->
     (i ∈ pat <-> chars w !! i = Some c)).
Proof.
  intros Hrun. destruct (said_sound _ _ _ _ _ Hrun) as [Hlog Hsaid].
  split; [by rewrite Hlog|].
  apply (play_loop_invariant (fun s log =>
           (forall c, c ∈ guessed_letters s <-> c ∈ log.*1) /\
           (forall c pat w, (c, pat) ∈ log -> w ∈ words s -> idxs c w = pat))) in Hrun.
  - destruct Hrun as [Hg Hc]. split; [done|]. split; [done|]. intros c pat w i Hin Hw.
    rewrite <- (Hc c pat w Hin Hw). apply idxs_spec.
  - clear. intros r inp s log ltr s' word [Hg Hc] (_ & _ & rest & Hupd & ->)%turn_accepted_inv.
    apply update_words_Ok_inv in Hupd as (_ & pat & Hcell & _). simpl. split.
    + intros c. rewrite fmap_app, elem_of_app, elem_of_union, elem_of_singleton.
      rewrite Hg. simpl. rewrite list_elem_of_singleton. tauto.
    + intros c pat' w [Hin|Hin%list_elem_of_singleton]%elem_of_app Hw.
      * apply (Hc c pat' w Hin). rewrite Hcell in Hw. by apply elem_of_cell in Hw as [? _].
      * injection Hin as -> ->.
        assert (word ∈ cell ltr pat (words s)) as Hword by (rewrite <- Hcell; left).
        rewrite Hcell in Hw. apply elem_of_cell in Hw as [_ ->].
        by apply elem_of_cell in Hword as [_ ->].
  - simpl. split.
    + intros c. rewrite elem_of_empty. split; [done|]. apply not_elem_of_nil.
    + intros c pat w Hin. by apply not_elem_of_nil in Hin.
Qed.

Lemma candidates_consistent_with_guesses_witness :
  let inputs := [(1, "O"); (0, "oo"); (0, "o"); (0, "f")]%string in
  let s := Session ["moo"%string] {[ "f"%char; "o"%char ]} 9 in
  let log := [("o", [1; 2]); ("f", [])]%char in
  (said inputs (Session scenario_A ∅ 10)).*1 = log.*1 /\
  (forall c, c ∈ guessed_letters s <-> c ∈ log.*1) /\
  (forall c v w, (c, v) ∈ said inputs (Session scenario_A ∅ 10) -> w ∈ words s ->
     match v with Correct => c ∈ chars w | Wrong => c ∉ chars w end) /\
  (forall c pat w i, (c, pat) ∈ log -> w ∈ words s ->
     (i ∈ pat <-> chars w !! i = Some c)).
Proof.
  intros inputs s log.
  apply (candidates_consistent_with_guesses inputs scenario_A 10 s log).
  vm_compute. reflexivity.
Defined.



(** C6, as the code has it: a pass rejects, leaving the state as it was,
    every input whose lower-cased length is not one, and every single
    character that is already among the guessed letters, with a reason of
    its own for each; any other single character, a letter or not, is
    never rejected, and on a non-empty candidate list it is taken as a
    guess and enters the guessed letters. *)
Theorem turn_rejects_by_length_and_repeat (r : nat) (inp : string) (s : session)
    (rest : list (nat * string)) (log : list shown) :
  (String.length (lower inp) <> 1 ->
     turn r inp s = Rejected NotOneLetter /\
     play_loop ((r, inp) :: rest) s log = play_loop rest s log) /\
  (forall ltr, lower inp = String ltr EmptyString -> ltr ∈ guessed_letters s ->
     turn r inp s = Rejected AlreadyGuessed /\
     play_loop ((r, inp) :: rest) s log = play_loop rest s log) /\
  (forall ltr, lower inp = String ltr EmptyString -> ltr ∉ guessed_letters s ->
     (forall why, turn r inp s <> Rejected why) /\
     (words s <> [] ->
      exists s' word,
        accepted (turn r inp s) = Some (ltr, s', word) /\
        guessed_letters s' = {[ ltr ]} ∪ guessed_letters s)).
Proof.
  split; [|split].
  - intros Hlen. pose proof (turn_not_one_letter r inp s Hlen) as Ht.
    split; [done|]. simpl. by rewrite Ht.
  - intros ltr Hl Hin. pose proof (turn_one_letter r inp s ltr Hl) as Ht.
    rewrite decide_True in Ht by done. split; [done|]. simpl. by rewrite Ht.
  - intros ltr Hl Hnin.
    assert (forall why, turn r inp s <> Rejected why) as Hnever.
    { intros why. rewrite (turn_one_letter r inp s ltr Hl), decide_False by done.
      apply accept_guess_not_rejected. }
    split; [done|]. intros Hne.
    destruct (turn_total r inp s Hne) as [[why Ht]|(c & s' & word & Ht)].
    + by apply Hnever in Ht.
    + pose proof Ht as (Hl' & _ & ws & _ & ->)%turn_accepted_inv.
      rewrite Hl in Hl'. injection Hl' as <-. by eexists _, word.
Qed.

Lemma turn_rejects_by_length_and_repeat_witness :
  (forall why, turn 0 "3" (Session ["cat"%string] ∅ 10) <> Rejected why) /\
  exists s' word,
    accepted (turn 0 "3" (Session ["cat"%string] ∅ 10)) = Some ("3"%char, s', word) /\
    guessed_letters s' = {[ "3"%char ]} ∪ ∅.
Proof.
  destruct (proj2 (proj2 (turn_rejects_by_length_and_repeat
                            0 "3" (Session ["cat"%string] ∅ 10) [] []))
              "3"%char eq_refl (not_elem_of_empty _)) as [Hnever Htaken].
  split; [exact Hnever|]. apply Htaken. done.
Defined.

(** C6, as stated, fails: the single character 3 is not a letter, and the
    pass takes it as a guess: it is added to the guessed letters and,
    being in no word, costs one of the remaining guesses. *)
Lemma digit_is_taken_as_a_guess :
  isalpha "3" = false /\
  turn 0 "3" (Session ["cat"%string] ∅ 10) =
    Continues Wrong "3" (Session ["cat"%string] {[ "3"%char ]} 9) "cat".
Proof. split; vm_compute; reflexivity. Qed.

(** C7: when no line of the word file has the requested length, so that
    [get_words] returns the empty list, nothing fails before the loop:
    [play] prompts for a letter on the empty candidate list, and the first
    single character typed kills the run with the [ValueError] of [max]
    inside [update_words]. *)
Theorem empty_candidates_fail_in_first_turn (lines : list string) (word_len n : Z) :
  get_words lines word_len = Ok [] ->
  play lines word_len n [] = Prompting (Session [] ∅ n) [] /\
  (forall r inp, String.length (lower inp) <> 1 ->
     play lines word_len n [(r, inp)] = Prompting (Session [] ∅ n) []) /\
  (forall r c, play lines word_len n [(r, String c EmptyString)] = Traceback ValueError).
Proof.
  intros Hget. unfold play. rewrite Hget. split; [done|]. split.
  - intros r inp Hlen. simpl. by rewrite (turn_not_one_letter r inp _ Hlen).
  - intros r c. simpl.
    rewrite (turn_one_letter r _ _ (lower_char c) (lower_one_letter c)).
    rewrite decide_False by apply not_elem_of_empty. reflexivity.
Qed.

Lemma empty_candidates_fail_in_first_turn_witness :
  play ["cat"; "horse"]%string 4 10 [] = Prompting (Session [] ∅ 10) [] /\
  (forall r inp, String.length (lower inp) <> 1 ->
     play ["cat"; "horse"]%string 4 10 [(r, inp)] = Prompting (Session [] ∅ 10) []) /\
  (forall r c, play ["cat"; "horse"]%string 4 10 [(r, String c EmptyString)]
               = Traceback ValueError).
Proof.
  apply (empty_candidates_fail_in_first_turn ["cat"; "horse"]%string 4 10).
  vm_compute. reflexivity.
Defined.

(** C8: for a non-empty candidate list and a new single letter that is in
    none of its words, the grouping has exactly one family, the one with no
    index, holding the whole list; [update_words] returns the list as it
    was, whatever the draw; the pass says wrong, takes exactly one from
    the remaining guesses and keeps the candidates. *)
Theorem absent_letter_is_a_miss (r : nat) (inp : string) (ltr : ascii) (s : session) :
  lower inp = String ltr EmptyString ->
  ltr ∉ guessed_letters s ->
  words s <> [] ->
  (forall w, w ∈ words s -> ltr ∉ chars w) ->
  build_families (words s) ltr = [([], words s)] /\
  update_words r (words s) ltr = Ok (words s) /\
  exists word,
    head (words s) = Some word /\
    let s' := Session (words s) ({[ ltr ]} ∪ guessed_letters s) (nguesses_left s - 1) in
    turn r inp s =
      if decide ((nguesses_left s - 1)%Z = 0%Z) then Breaks YouSuck ltr s' word
      else Continues Wrong ltr s' word.
Proof.
  intros Hl Hnin Hne Habs.
  assert (forall w, w ∈ words s -> idxs ltr w = []) as Hidx.
  { intros w Hw. by apply idxs_from_nil_iff, Habs. }
  pose proof (build_families_absent ltr (words s) Hne Hidx) as HF.
  assert (update_words r (words s) ltr = Ok (words s)) as Hupd.
  { destruct (update_words_spec r (words s) ltr Hne) as (pat & Hupd & Hin & _).
    rewrite HF in Hin. apply list_elem_of_singleton in Hin.
    injection Hin as _ Hcell. by rewrite Hupd, Hcell. }
  split; [done|]. split; [done|].
  destruct (words s) as [|word rest] eqn:Hws; [done|]. exists word. split; [done|].
  assert (update_words r (words s) ltr = Ok (word :: rest)) as Hupd'
    by (by rewrite Hws).
  rewrite (turn_one_letter r inp s ltr Hl), decide_False by done.
  rewrite (accept_guess_Ok _ _ _ _ _ Hupd'). cbn zeta.
  assert (in_word ltr word = false) as ->; [|done].
  apply in_word_false_iff, Hidx. left.
Qed.

Lemma absent_letter_is_a_miss_witness :
  let s := Session ["cat"; "dog"]%string {[ "a"%char ]} 3 in
  build_families (words s) "z" = [([], words s)] /\
  update_words 5 (words s) "z" = Ok (words s) /\
  exists word,
    head (words s) = Some word /\
    let s' := Session (words s) ({[ "z"%char ]} ∪ guessed_letters s) (nguesses_left s - 1) in
    turn 5 "Z" s =
      if decide ((nguesses_left s - 1)%Z = 0%Z) then Breaks YouSuck "z" s' word
      else Continues Wrong "z" s' word.
Proof.
  intros s. apply (absent_letter_is_a_miss 5 "Z" "z" s).
  - reflexivity.
  - vm_compute. intros H. inversion H.
  - done.
  - intros w Hw. apply idxs_from_nil_iff with (i := 0).
    revert w Hw. apply Forall_forall. repeat constructor.
Defined.

(** C9: in a game started with no guessed letter, typing again a letter
    that is among the guessed letters (in either case) is rejected as
    already guessed, and the loop is where it was: same candidates, same
    guessed letters, same number of guesses left, same log. *)
Theorem repeated_guess_is_rejected (inputs : list (nat * string)) (ws : list string)
    (n : Z) (s : session) (log : list shown) (ltr : ascii) :
  play_loop inputs (Session ws ∅ n) [] = Prompting s log ->
  ltr ∈ guessed_letters s ->
  lower (String ltr EmptyString) = String ltr EmptyString /\
  forall r inp, lower inp = String ltr EmptyString ->
    turn r inp s = Rejected AlreadyGuessed /\
    play_loop (inputs ++ [(r, inp)]) (Session ws ∅ n) [] = Prompting s log.
Proof.
  intros Hrun Hin. split.
  - rewrite lower_one_letter. f_equal. revert ltr Hin.
    apply (play_loop_invariant
             (fun s _ => forall c, c ∈ guessed_letters s -> lower_char c = c))
      with (inputs := inputs) (s := Session ws ∅ n) (log := []) (log1 := log).
    + clear. intros r inp s log ltr s' word Hinv (Hl & _ & rest & _ & ->)%turn_accepted_inv.
      simpl. intros c [Hc%elem_of_singleton|Hc]%elem_of_union; [|by apply Hinv].
      subst c. by apply lower_one_letter_fixed in Hl.
    + simpl. intros c Hc. by apply elem_of_empty in Hc.
    + by rewrite Hrun.
  - intros r inp Hl. pose proof (turn_one_letter r inp s ltr Hl) as Ht.
    rewrite decide_True in Ht by done. split; [done|].
    rewrite play_loop_app, Hrun. simpl. by rewrite Ht.
Qed.

Lemma repeated_guess_is_rejected_witness :
  let s := Session ["moo"%string] {[ "f"%char; "o"%char ]} 9 in
  let log := [("o", [1; 2]); ("f", [])]%char in
  let inputs := [(1, "O"); (0, "oo"); (0, "o"); (0, "f")]%string in
  lower (String "f" EmptyString) = String "f" EmptyString /\
  forall r inp, lower inp = String "f" EmptyString ->
    turn r inp s = Rejected AlreadyGuessed /\
    play_loop (inputs ++ [(r, inp)]) (Session scenario_A ∅ 10) [] = Prompting s log.
Proof.
  intros s log inputs.
  apply (repeated_guess_is_rejected inputs scenario_A 10 s log "f").
  - vm_compute. reflexivity.
  - vm_compute. reflexivity.
Defined.

(** C10: [play] takes a guess count of zero as it is.  From there the
    number of guesses left is minus the number of wrong guesses so far, so
    below zero after the first of them, and the loop never breaks on the
    test [nguesses_left == 0]: a game that ends, ends won. *)
Theorem zero_guesses_never_lost (lines : list string) (word_len : Z)
    (inputs : list (nat * string)) (s : session) (log : list shown) :
  run_state (play lines word_len 0 inputs) = Some (s, log) ->
  nguesses_left s = (- Z.of_nat (length (filter (fun x : shown => x.2 = []) log)))%Z /\
  forall e word, play lines word_len 0 inputs = GameOver e s word log -> e = YouRock.
Proof.
  unfold play. destruct (get_words lines word_len) as [ws|e0]; [|done].
  intros Hrun. split.
  - apply (play_loop_invariant (fun s log =>
       nguesses_left s = (- Z.of_nat (length (filter (fun x : shown => x.2 = []) log)))%Z))
      in Hrun; [done| |done].
    clear. intros r inp s log ltr s' word Hinv (_ & _ & rest & _ & ->)%turn_accepted_inv.
    simpl. rewrite filter_app, length_app, (filter_cons _ (ltr, idxs ltr word)), filter_nil.
    simpl. destruct (in_word ltr word) eqn:Hw.
    + apply in_word_true_iff in Hw. rewrite decide_False by done. simpl. lia.
    + apply in_word_false_iff in Hw. rewrite decide_True by done. simpl. lia.
  - intros e word Hover. by apply play_loop_never_lost in Hover.
Qed.

Lemma zero_guesses_never_lost_witness :
  let s := Session ["cot"; "dog"]%string {[ "a"%char; "x"%char; "y"%char ]} (-3) in
  let log := [("x", []); ("y", []); ("a", [])]%char in
  let inputs := [(0, "x"); (0, "Y"); (0, "a")]%string in
  nguesses_left s = (- Z.of_nat (length (filter (fun x : shown => x.2 = []) log)))%Z /\
  forall e word,
    play ["cat"; "cot"; "dog"]%string 3 0 inputs = GameOver e s word log -> e = YouRock.
Proof.
  intros s log inputs.
  apply (zero_guesses_never_lost ["cat"; "cot"; "dog"]%string 3 inputs s log).
  vm_compute. reflexivity.
Defined.

(** * More on the grouping and the choice *)

Lemma cell_in_families (ws : list string) (ltr : ascii) (pat : list nat) :
  cell ltr pat ws <> [] -> (pat, cell ltr pat ws) ∈ build_families ws ltr.
Proof.
  intros Hne. destruct (build_families_ok ws ltr) as (_ & Hcells & Hkeys).
  destruct (cell ltr pat ws) as [|w l] eqn:Hc; [done|].
  assert (w ∈ cell ltr pat ws) as Hw by (rewrite Hc; left).
  apply elem_of_cell in Hw as [Hw Hpat]. apply Hkeys in Hw.
  rewrite Hpat in Hw. apply list_elem_of_fmap in Hw as ([k f] & Hk & Hf).
  simpl in Hk. subst k. destruct (Hcells _ _ Hf) as [Hfc _].
  rewrite <- Hc, <- Hfc. done.
Qed.

Lemma cell_length_le_family (ws : list string) (ltr : ascii) (g : list string) :
  (forall k f, (k, f) ∈ build_families ws ltr -> length f <= length g) ->
  forall pat, length (cell ltr pat ws) <= length g.
Proof.
  intros Hmax pat. destruct (decide (cell ltr pat ws = [])) as [->|Hne]; [simpl; lia|].
  apply (Hmax pat). by apply cell_in_families.
Qed.

Lemma total_size_fam_append (key : list nat) (word : string) (fams : list family) :
  total_size (fam_append key word fams) = S (total_size fams).
Proof.
  unfold total_size. induction fams as [|[k f] fams IH]; [done|]. cbn [fam_append].
  case_decide; rewrite !fmap_cons; cbn [snd sum_list sum_list_with].
  - rewrite length_app. simpl. lia.
  - change (sum_list_with id ?l) with (sum_list l). rewrite IH. lia.
Qed.

Lemma total_size_foldl (ltr : ascii) (ws : list string) (fams : list family) :
  total_size (foldl (fun families word => fam_append (idxs ltr word) word families) fams ws)
  = total_size fams + length ws.
Proof.
  revert fams. induction ws as [|w ws IH]; intros fams; simpl; [lia|].
  rewrite IH, total_size_fam_append. lia.
Qed.

Lemma insert_by_sorted {A} (key : A -> nat) (x : A) (l : list A) :
  StronglySorted (fun a b => key a <= key b) l ->
  StronglySorted (fun a b => key a <= key b) (insert_by key x l).
Proof.
  induction 1 as [|y l Hs IH Hy]; simpl; [repeat constructor|].
  case_decide as Hxy.
  - constructor; [by constructor|]. constructor; [done|].
    eapply Forall_impl; [exact Hy|]. simpl. intros z Hz. lia.
  - constructor; [done|]. rewrite insert_by_perm. constructor; [lia|done].
Qed.

Lemma sorted_sorted {A} (key : A -> nat) (l : list A) :
  StronglySorted (fun a b => key a <= key b) (sorted key l).
Proof.
  induction l as [|x l IH]; simpl; [constructor|]. by apply insert_by_sorted.
Qed.

(** The first element of [sorted] has the least key of the input. *)
Lemma sorted_head_least {A} (key : A -> nat) (l : list A) (x : A) (l' : list A) :
  sorted key l = x :: l' -> forall y, y ∈ l -> key x <= key y.
Proof.
  intros Hs y Hy. pose proof (sorted_sorted key l) as Hss. rewrite Hs in Hss.
  apply StronglySorted_inv in Hss as [_ Hall].
  rewrite <- (sorted_perm key l), Hs in Hy.
  apply elem_of_cons in Hy as [->|Hy]; [lia|].
  by apply (proj1 (Forall_forall _ _) Hall).
Qed.

Lemma filter_all {A} (P : A -> Prop) `{!forall x, Decision (P x)} (l : list A) :
  (forall x, x ∈ l -> P x) -> filter P l = l.
Proof.
  induction l as [|x l IH]; intros Hall; [done|].
  rewrite filter_cons, decide_True by (apply Hall; left).
  f_equal. apply IH. intros y Hy. apply Hall. by right.
Qed.

(** X1: the families of the grouping partition the words: the keys are
    distinct, the families are exactly the non-empty cells, and their
    sizes add up to the number of words. *)
Theorem families_partition_the_words (ws : list string) (ltr : ascii) :
  NoDup (build_families ws ltr).*1 /\
  (forall k f, (k, f) ∈ build_families ws ltr <-> f = cell ltr k ws /\ f <> []) /\
  total_size (build_families ws ltr) = length ws.
Proof.
  destruct (build_families_ok ws ltr) as (Hnd & Hcells & Hkeys).
  split; [done|]. split.
  - intros k f. split; [apply Hcells|]. intros [-> Hne]. by apply cell_in_families.
  - unfold build_families. by rewrite total_size_foldl.
Qed.

(** X2: the lists [update_words] can return, over all draws, are exactly
    the families that no family outnumbers. *)
Theorem update_words_outcomes_are_largest_families (ws : list string) (ltr : ascii)
    (g : list string) :
  (exists r, update_words r ws ltr = Ok g) <->
  (exists pat, (pat, g) ∈ build_families ws ltr /\
     forall k f, (k, f) ∈ build_families ws ltr -> length f <= length g).
Proof.
  split.
  - intros [r (_ & pat & -> & _ & Hin & Hmax)%update_words_Ok_inv].
    exists pat. split; [done|]. intros k f Hkf.
    destruct (build_families_ok ws ltr) as (_ & Hcells & _).
    destruct (Hcells _ _ Hkf) as [-> _]. apply Hmax.
  - intros (pat & Hin & Hmax). apply (update_words_any_largest ws ltr pat g Hin).
    by apply cell_length_le_family.
Qed.

(** X3: narrowing again by the same letter changes nothing: on a list
    [update_words] returned for a letter, it returns that list for the
    same letter, whatever the draw. *)
Theorem update_words_same_letter_again (r r' : nat) (ws : list string) (ltr : ascii)
    (g : list string) :
  update_words r ws ltr = Ok g -> update_words r' g ltr = Ok g.
Proof.
  intros (_ & pat & -> & Hne & _)%update_words_Ok_inv.
  destruct (update_words_spec r' _ ltr Hne) as (pat' & -> & _ & Hne' & _).
  f_equal. apply filter_all. intros w [_ Hw]%elem_of_cell.
  destruct (cell ltr pat' (cell ltr pat ws)) as [|w' l] eqn:Hc; [done|].
  assert (w' ∈ cell ltr pat' (cell ltr pat ws)) as Hw' by (rewrite Hc; left).
  apply elem_of_cell in Hw' as [[_ Hp]%elem_of_cell Hp']. congruence.
Qed.

Lemma update_words_same_letter_again_witness :
  update_words 7 ["foo"; "moo"]%string "o" = Ok ["foo"; "moo"]%string.
Proof.
  apply (update_words_same_letter_again 1 7 scenario_A "o").
  vm_compute. reflexivity.
Defined.

(** X4: when one family is larger than every other, [update_words]
    returns it for every draw. *)
Theorem update_words_unique_largest (r : nat) (ws : list string) (ltr : ascii)
    (pat : list nat) (g : list string) :
  (pat, g) ∈ build_families ws ltr ->
  (forall k f, (k, f) ∈ build_families ws ltr -> k <> pat -> length f < length g) ->
  update_words r ws ltr = Ok g.
Proof.
  intros Hin Hbig. destruct (build_families_ok ws ltr) as (_ & Hcells & _).
  destruct (Hcells _ _ Hin) as [-> Hg].
  assert (ws <> []) as Hne by (intros ->; by apply not_elem_of_nil in Hin).
  destruct (update_words_spec r ws ltr Hne) as (pat' & Hupd & Hin' & _ & Hmax).
  destruct (decide (pat' = pat)) as [->|Hp]; [done|].
  pose proof (Hbig _ _ Hin' Hp). pose proof (Hmax pat). lia.
Qed.

Lemma update_words_unique_largest_witness :
  update_words 3 ["foo"; "cat"; "moo"]%string "o" = Ok ["foo"; "moo"]%string.
Proof.
  apply (update_words_unique_largest 3 ["foo"; "cat"; "moo"]%string "o" [1; 2]).
  - vm_compute. left.
  - vm_compute. intros k f Hkf Hk.
    apply elem_of_cons in Hkf as [Hkf|Hkf]; [congruence|].
    apply list_elem_of_singleton in Hkf. injection Hkf as -> ->. simpl. lia.
Defined.

(** X5: the sort by number of indices does put a family with the fewest
    occurrences of the letter first: when [random.choice] draws the first
    element, the list returned is a largest family whose key is not longer
    than the key of any other largest family. *)
Theorem update_words_first_draw_fewest (r : nat) (ws : list string) (ltr : ascii)
    (m : nat) :
  py_max ((fun f : family => length f.2) <$> build_families ws ltr) = Ok m ->
  r mod length (longest_fams_of (build_families ws ltr) m) = 0 ->
  exists pat,
    update_words r ws ltr = Ok (cell ltr pat ws) /\
    (pat, cell ltr pat ws) ∈ build_families ws ltr /\
    length (cell ltr pat ws) = m /\
    forall k f, (k, f) ∈ build_families ws ltr -> length f = m ->
                length pat <= length k.
Proof.
  intros Hmax Hr. destruct (build_families_ok ws ltr) as (_ & Hcells & _).
  set (F := build_families ws ltr) in *.
  assert ((fun f : family => length f.2) <$> F <> []) as HF.
  { intros Heq. by rewrite Heq in Hmax. }
  destruct (py_max_spec _ HF) as (m' & Hmax' & Hm & _).
  rewrite Hmax in Hmax'. injection Hmax' as <-.
  set (L := longest_fams_of F m) in *.
  destruct (sorted (fun f : family => length f.1) L) as [|[pat g] l'] eqn:Hs.
  { apply list_elem_of_fmap in Hm as (f & Hlen & Hf).
    assert (f ∈ sorted (fun f : family => length f.1) L) as Hin.
    { rewrite sorted_perm. apply list_elem_of_filter. by split. }
    rewrite Hs in Hin. by apply not_elem_of_nil in Hin. }
  assert ((pat, g) ∈ L) as HinL.
  { rewrite <- (sorted_perm (fun f : family => length f.1) L), Hs. left. }
  apply list_elem_of_filter in HinL as [Hlen HinF]. simpl in Hlen.
  destruct (Hcells _ _ HinF) as [Hg _]. subst g.
  exists pat. split; [|split; [done|split; [done|]]].
  - unfold update_words. fold F. rewrite Hmax, result_bind_Ok. fold L. rewrite Hs.
    unfold random_choice.
    rewrite <- Hs, (Permutation_length (sorted_perm _ L)), Hr, Hs. reflexivity.
  - intros k f Hkf Hf.
    apply (sorted_head_least (fun f : family => length f.1) L _ _ Hs (k, f)).
    apply list_elem_of_filter. by split.
Qed.

Lemma update_words_first_draw_fewest_witness :
  exists pat,
    update_words 2 scenario_A "o" = Ok (cell "o" pat scenario_A) /\
    (pat, cell "o" pat scenario_A) ∈ build_families scenario_A "o" /\
    length (cell "o" pat scenario_A) = 2 /\
    forall k f, (k, f) ∈ build_families scenario_A "o" -> length f = 2 ->
                length pat <= length k.
Proof.
  apply (update_words_first_draw_fewest 2 scenario_A "o" 2).
  - vm_compute. reflexivity.
  - vm_compute. reflexivity.
Defined.

(** * The word list *)

Lemma foldl_min_bounds (l : list nat) (x : nat) :
  foldl Nat.min x l <= x /\ (forall y, y ∈ l -> foldl Nat.min x l <= y).
Proof.
  revert x. induction l as [|a l IH]; intros x; simpl.
  - split; [lia|]. intros y Hy. by apply not_elem_of_nil in Hy.
  - destruct (IH (Nat.min x a)) as [Hle Hall]. split; [lia|].
    intros y [->|Hy]%elem_of_cons; [lia|by apply Hall].
Qed.

Lemma py_min_spec (l : list nat) :
  l <> [] -> exists m, py_min l = Ok m /\ forall y, y ∈ l -> m <= y.
Proof.
  destruct l as [|x l]; [done|]. intros _. exists (foldl Nat.min x l).
  destruct (foldl_min_bounds l x) as [Hle Hall]. split; [done|].
  intros y [->|Hy]%elem_of_cons; [done|by apply Hall].
Qed.

Lemma lower_length (s : string) : String.length (lower s) = String.length s.
Proof. induction s as [|c s IH]; simpl; [done|by rewrite IH]. Qed.

Lemma lower_idemp (s : string) : lower (lower s) = lower s.
Proof. induction s as [|c s IH]; simpl; [done|]. by rewrite lower_char_idemp, IH. Qed.

Lemma get_words_out_of_range (lines : list string) (word_len : Z)
    (min_len max_len : nat) :
  py_min (String.length <$> (strip <$> lines)) = Ok min_len ->
  py_max (String.length <$> (strip <$> lines)) = Ok max_len ->
  (word_len < Z.of_nat min_len \/ Z.of_nat max_len < word_len)%Z ->
  get_words lines word_len = Ok [].
Proof.
  intros Hmin Hmax Hout. unfold get_words. rewrite Hmin, Hmax, !result_bind_Ok.
  f_equal. set (ls := String.length <$> (strip <$> lines)) in *.
  assert (ls <> []) as Hne by (intros Heq; by rewrite Heq in Hmin).
  destruct (py_min_spec _ Hne) as (mn & Hmn & Hlo).
  destruct (py_max_spec _ Hne) as (mx & Hmx & _ & Hhi).
  rewrite Hmin in Hmn. injection Hmn as <-. rewrite Hmax in Hmx. injection Hmx as <-.
  destruct (filter _ (strip <$> lines)) as [|w l] eqn:Hf; [done|].
  assert (w ∈ filter (fun w => isalpha w = true ∧ Z.of_nat (String.length w) = word_len)
                     (strip <$> lines)) as Hw by (rewrite Hf; left).
  apply list_elem_of_filter in Hw as [[_ Hlen] Hw].
  apply (list_elem_of_fmap_2 String.length) in Hw. fold ls in Hw.
  pose proof (Hlo _ Hw). pose proof (Hhi _ Hw). lia.
Qed.

(** X8: a requested length below the shortest or above the longest line
    of the file (the range shown in the prompt) is not refused: the word
    list is then empty. *)
Theorem get_words_out_of_range_is_empty (lines : list string) (word_len : Z)
    (min_len max_len : nat) :
  py_min (String.length <$> (strip <$> lines)) = Ok min_len ->
  py_max (String.length <$> (strip <$> lines)) = Ok max_len ->
  (word_len < Z.of_nat min_len \/ Z.of_nat max_len < word_len)%Z ->
  get_words lines word_len = Ok [].
Proof. apply get_words_out_of_range. Qed.

Lemma get_words_out_of_range_is_empty_witness :
  get_words ["cat"; "horse"; "ox"]%string 6 = Ok [].
Proof.
  apply (get_words_out_of_range_is_empty ["cat"; "horse"; "ox"]%string 6 2 5).
  - reflexivity.
  - reflexivity.
  - right. lia.
Defined.

(** * The prompts *)

Section PromptFacts.

Variable py_int : string -> option Z.

Lemma prompt_int_skips (bad rest : list string) (default : Z) :
  Forall (refused py_int) bad ->
  prompt_int py_int (bad ++ rest) default = prompt_int py_int rest default.
Proof.
  induction 1 as [|b bad [Hne Hb] _ IH]; [done|]. simpl.
  destruct b; [done|]. by rewrite Hb.
Qed.

(** X9: [prompt_int] returns for the first line that is empty or that
    [int] accepts, with the default for the empty line and the integer
    otherwise; every line before it was refused and none after it is
    read.  It is still prompting exactly when every line was refused. *)
Theorem prompt_int_first_good_line (answers : list string) (default : Z) :
  (forall n rest,
     prompt_int py_int answers default = Some (n, rest) <->
     exists bad a,
       answers = bad ++ a :: rest /\ Forall (refused py_int) bad /\
       ((a = EmptyString /\ n = default) \/ (a <> EmptyString /\ py_int a = Some n))) /\
  (prompt_int py_int answers default = None <-> Forall (refused py_int) answers).
Proof.
  split.
  - intros n rest. split.
    + induction answers as [|a answers IH]; simpl; [done|].
      destruct a as [|c a].
      * intros [= <- <-]. exists [], EmptyString. split; [done|]. split; [constructor|by left].
      * destruct (py_int (String c a)) as [k|] eqn:Hk.
        -- intros [= <- <-]. exists [], (String c a).
           split; [done|]. split; [constructor|by right].
        -- intros (bad & a' & -> & Hbad & Ha)%IH. exists (String c a :: bad), a'.
           split; [done|]. split; [|done]. by constructor.
    + intros (bad & a & -> & Hbad & Ha). rewrite (prompt_int_skips _ _ _ Hbad). simpl.
      destruct Ha as [[-> ->]|[Hne Ha]]; [done|]. destruct a; [done|]. by rewrite Ha.
  - split.
    + induction answers as [|a answers IH]; simpl; [constructor|].
      destruct a as [|c a]; [done|].
      destruct (py_int (String c a)) eqn:Hk; [done|].
      intros Hn. constructor; [done|by apply IH].
    + intros Hall. rewrite <- (app_nil_r answers). by rewrite (prompt_int_skips _ _ _ Hall).
Qed.

Lemma get_words_prompted_at (lines answers rest : list string) (max_len : nat)
    (word_len : Z) :
  py_max (String.length <$> (strip <$> lines)) = Ok max_len ->
  prompt_int py_int answers (Z.of_nat (Nat.min max_len 5)) = Some (word_len, rest) ->
  get_words_prompted py_int lines answers =
  match get_words lines word_len with
  | Ok ws => Ok (Some (ws, rest))
  | Raise e => Raise e
  end.
Proof.
  intros Hmax Hp. unfold get_words_prompted, get_words.
  destruct (py_min (String.length <$> (strip <$> lines))) as [mn|e]; [|done].
  rewrite Hmax, !result_bind_Ok. cbn zeta. by rewrite Hp.
Qed.

(** X10: an empty answer at the word-length prompt asks for words of
    length [min(max_len, 5)]; when every line of the file is longer than
    five characters that default lies below the range shown, and the word
    list comes back empty. *)
Theorem get_words_default_length (lines rest : list string) (min_len max_len : nat) :
  py_min (String.length <$> (strip <$> lines)) = Ok min_len ->
  py_max (String.length <$> (strip <$> lines)) = Ok max_len ->
  get_words_prompted py_int lines (EmptyString :: rest) =
    match get_words lines (Z.of_nat (Nat.min max_len 5)) with
    | Ok ws => Ok (Some (ws, rest))
    | Raise e => Raise e
    end /\
  (5 < min_len -> get_words_prompted py_int lines (EmptyString :: rest) = Ok (Some ([], rest))).
Proof.
  intros Hmin Hmax.
  assert (get_words_prompted py_int lines (EmptyString :: rest) =
          match get_words lines (Z.of_nat (Nat.min max_len 5)) with
          | Ok ws => Ok (Some (ws, rest))
          | Raise e => Raise e
          end) as Heq by (by apply (get_words_prompted_at _ _ _ max_len)).
  split; [done|]. intros Hlong. rewrite Heq.
  rewrite (get_words_out_of_range lines _ min_len max_len Hmin Hmax); [done|].
  left. lia.
Qed.

End PromptFacts.

Lemma prompt_int_first_good_line_witness :
  let py_int := fun a : string => if decide (a = "12"%string) then Some 12%Z else None in
  prompt_int py_int ["x"; "1 2"; "12"; "7"]%string 10 = Some (12%Z, ["7"%string]) <->
  exists bad a,
    ["x"; "1 2"; "12"; "7"]%string = bad ++ a :: ["7"%string] /\
    Forall (refused py_int) bad /\
    ((a = EmptyString /\ 12%Z = 10%Z) \/ (a <> EmptyString /\ py_int a = Some 12%Z)).
Proof.
  intros py_int.
  apply (proj1 (prompt_int_first_good_line py_int ["x"; "1 2"; "12"; "7"]%string 10)).
Defined.

Lemma get_words_default_length_witness :
  get_words_prompted (fun _ => None) ["quartz"; "zephyrs"]%string [EmptyString] =
    match get_words ["quartz"; "zephyrs"]%string (Z.of_nat (Nat.min 7 5)) with
    | Ok ws => Ok (Some (ws, []))
    | Raise e => Raise e
    end /\
  (5 < 6 -> get_words_prompted (fun _ => None) ["quartz"; "zephyrs"]%string [EmptyString]
            = Ok (Some ([], []))).
Proof.
  apply (get_words_default_length (fun _ => None) ["quartz"; "zephyrs"]%string [] 6 7).
  - reflexivity.
  - reflexivity.
Defined.

(** * More on the loop *)

(** Induction over the loop with one property for the states in which it
    prompts and one for the state in which it breaks. *)
Lemma play_loop_ind2 (P : session -> list shown -> Prop)
    (Q : ending -> session -> string -> list shown -> Prop) :
  (forall r inp s log v ltr s' word,
      P s log -> turn r inp s = Continues v ltr s' word ->
      P s' (log ++ [(ltr, idxs ltr word)])) ->
  (forall r inp s log e ltr s' word,
      P s log -> turn r inp s = Breaks e ltr s' word ->
      Q e s' word (log ++ [(ltr, idxs ltr word)])) ->
  forall inputs s log,
    P s log ->
    match play_loop inputs s log with
    | Prompting s1 log1 => P s1 log1
    | GameOver e s1 word log1 => Q e s1 word log1
    | Traceback _ => True
    end.
Proof.
  intros HP HQ inputs. induction inputs as [|[r inp] inputs IH]; intros s log Hs; simpl; [done|].
  destruct (turn r inp s) as [why|v ltr s' word|e ltr s' word|e] eqn:Ht.
  - by apply IH.
  - apply IH. by apply (HP r inp s log v).
  - by apply (HQ r inp s).
  - done.
Qed.

(** X11: the candidates of a game are at every moment a sub-list of the
    list [get_words] returned: the same words in the same order, nothing
    added. *)
Theorem candidates_come_from_the_file (lines : list string) (word_len n : Z)
    (inputs : list (nat * string)) (s : session) (log : list shown) :
  run_state (play lines word_len n inputs) = Some (s, log) ->
  exists ws, get_words lines word_len = Ok ws /\ words s `sublist_of` ws.
Proof.
  unfold play. destruct (get_words lines word_len) as [ws|e] eqn:Hget; [|done].
  intros Hsub%play_loop_sublist. cbn [words] in Hsub. by exists ws.
Qed.

Lemma candidates_come_from_the_file_witness :
  exists ws,
    get_words ["cat "; " Dog"; "a1c"; "horse"; "cot"]%string 3 = Ok ws /\
    ["dog"; "cot"]%string `sublist_of` ws.
Proof.
  apply (candidates_come_from_the_file ["cat "; " Dog"; "a1c"; "horse"; "cot"]%string 3 2
           [(0, "A"); (0, "zz")]%string
           (Session ["dog"; "cot"]%string {[ "a"%char ]} 1) [("a"%char, [])]).
  vm_compute. reflexivity.
Defined.

(** ** Words that agree on the guessed letters *)

Lemma same_idxs_agree (g : gset ascii) (w1 w2 : string) (i : nat) :
  String.length w1 = String.length w2 ->
  (forall c, c ∈ g -> idxs_from i c w1 = idxs_from i c w2) ->
  Forall2 (agree_on g) (chars w1) (chars w2).
Proof.
  revert w2 i. induction w1 as [|c1 r1 IH]; intros [|c2 r2] i Hlen H; simpl in *;
    try done; try (by constructor).
  assert (agree_on g c1 c2) as Hhead.
  { intros [Hc|Hc]; specialize (H _ Hc).
    - rewrite (decide_True (P := c1 = c1)) in H by done.
      destruct (decide (c1 = c2)) as [|Hne]; [done|]. exfalso.
      assert (i ∈ idxs_from (S i) c1 r2) as Hi by (rewrite <- H; left).
      apply idxs_from_ge in Hi. lia.
    - rewrite (decide_True (P := c2 = c2)) in H by done.
      destruct (decide (c2 = c1)) as [|Hne]; [done|]. exfalso.
      assert (i ∈ idxs_from (S i) c2 r1) as Hi by (rewrite H; left).
      apply idxs_from_ge in Hi. lia. }
  constructor; [done|]. apply (IH r2 (S i)); [lia|]. intros c Hc.
  specialize (H c Hc).
  destruct (decide (c = c1)) as [E1|H1], (decide (c = c2)) as [E2|H2].
  - by injection H.
  - exfalso. apply H2. rewrite E1. apply Hhead. left. by rewrite <- E1.
  - exfalso. apply H1. rewrite E2. symmetry. apply Hhead. right. by rewrite <- E2.
  - done.
Qed.

Lemma agree_masked (g : gset ascii) (w1 w2 : string) :
  Forall2 (agree_on g) (chars w1) (chars w2) -> masked w1 g = masked w2 g.
Proof.
  intros Hag. unfold masked. f_equal.
  induction Hag as [|c1 c2 l1 l2 Hc _ IH]; [done|]. rewrite !fmap_cons, IH. f_equal.
  unfold show_char. destruct (decide (c1 ∈ g)) as [H1|H1], (decide (c2 ∈ g)) as [H2|H2];
    try done.
  - by rewrite Hc by (by left).
  - exfalso. apply H2. by rewrite <- Hc by (by left).
  - exfalso. apply H1. by rewrite Hc by (by right).
Qed.

Lemma chars_inj (w1 w2 : string) : chars w1 = chars w2 -> w1 = w2.
Proof.
  unfold chars. intros Heq.
  by rewrite <- (string_of_list_ascii_of_string w1), Heq, string_of_list_ascii_of_string.
Qed.

Lemma agree_covered (g : gset ascii) (w1 w2 : string) :
  Forall2 (agree_on g) (chars w1) (chars w2) ->
  (forall c, c ∈ chars w2 -> c ∈ g) -> w1 = w2.
Proof.
  intros Hag Hcov. apply chars_inj.
  induction Hag as [|c1 c2 l1 l2 Hc _ IH]; [done|]. f_equal.
  - apply Hc. right. apply Hcov. left.
  - apply IH. intros c Hin. apply Hcov. by right.
Qed.

Lemma missing_letters_empty (w : string) (g : gset ascii) :
  missing_letters w g = ∅ <-> forall c, c ∈ chars w -> c ∈ g.
Proof.
  unfold missing_letters. split.
  - intros Hm c Hc. destruct (decide (c ∈ g)) as [|Hn]; [done|]. exfalso.
    assert (c ∈ list_to_set (C := gset ascii) (chars w) ∖ g) as Hin.
    { apply elem_of_difference. split; [by apply elem_of_list_to_set|done]. }
    rewrite Hm in Hin. by apply elem_of_empty in Hin.
  - intros Hall. apply set_eq. intros c. rewrite elem_of_difference, elem_of_list_to_set.
    split; [intros [Hc Hn]; exfalso; by apply Hn, Hall|].
    intros Hc. by apply elem_of_empty in Hc.
Qed.

(** ** What a game keeps *)

Lemma misses_snoc (log : list shown) (ltr : ascii) (pat : list nat) :
  length (misses (log ++ [(ltr, pat)])) =
  if decide (pat = []) then S (length (misses log)) else length (misses log).
Proof.
  unfold misses. rewrite filter_app, length_app, (filter_cons _ (ltr, pat)), filter_nil.
  simpl. case_decide; simpl; lia.
Qed.

Lemma game_inv_step (n : Z) (r : nat) (inp : string) (s : session)
    (log : list shown) (ltr : ascii) (s' : session) (word : string) :
  game_inv n s log ->
  accepted (turn r inp s) = Some (ltr, s', word) ->
  game_inv n s' (log ++ [(ltr, idxs ltr word)]).
Proof.
  intros (Hn & Hnd & Hg & Hc & _) (_ & Hnin & rest & Hupd & ->)%turn_accepted_inv.
  apply update_words_Ok_inv in Hupd as (_ & pat & Hcell & _).
  unfold game_inv. cbn [words guessed_letters nguesses_left].
  split; [|split; [|split; [|split]]].
  - rewrite misses_snoc. destruct (in_word ltr word) eqn:Hw.
    + apply in_word_true_iff in Hw. rewrite decide_False by done. done.
    + apply in_word_false_iff in Hw. rewrite decide_True by done. lia.
  - rewrite fmap_app. apply NoDup_app. split; [done|]. split; [|apply NoDup_singleton].
    intros c Hin Hc'%list_elem_of_singleton. simpl in Hc'. subst c. by apply Hnin, Hg.
  - intros c. rewrite fmap_app, elem_of_app, elem_of_union, elem_of_singleton, Hg.
    simpl. rewrite list_elem_of_singleton. tauto.
  - intros c pat' w [Hin|Hin%list_elem_of_singleton]%elem_of_app Hw.
    + apply (Hc c pat' w Hin). rewrite Hcell in Hw. by apply elem_of_cell in Hw as [? _].
    + injection Hin as -> ->.
      assert (word ∈ cell ltr pat (words s)) as Hword by (rewrite <- Hcell; left).
      rewrite Hcell in Hw. apply elem_of_cell in Hw as [_ ->].
      by apply elem_of_cell in Hword as [_ ->].
  - done.
Qed.

Lemma game_inv_agree (n : Z) (s : session) (log : list shown) (w1 w2 : string) :
  game_inv n s log -> same_length (words s) -> w1 ∈ words s -> w2 ∈ words s ->
  Forall2 (agree_on (guessed_letters s)) (chars w1) (chars w2).
Proof.
  intros (_ & _ & Hg & Hc & _) Hlen H1 H2.
  apply (same_idxs_agree _ _ _ 0); [by apply Hlen|].
  intros c [[c' pat] [Hc' Hin]]%Hg%list_elem_of_fmap. simpl in Hc'. subst c'.
  change (idxs c w1 = idxs c w2). by rewrite (Hc _ _ _ Hin H1), (Hc _ _ _ Hin H2).
Qed.

Lemma same_length_sublist (l ws : list string) :
  l `sublist_of` ws -> same_length ws -> same_length l.
Proof.
  intros Hsub Hlen w1 w2 H1 H2.
  apply Hlen; by apply (sublist_elem_of_l _ _ _ Hsub).
Qed.

Lemma same_length_step (r : nat) (inp : string) (s : session)
    (ltr : ascii) (s' : session) (word : string) :
  accepted (turn r inp s) = Some (ltr, s', word) ->
  same_length (words s) -> same_length (words s').
Proof.
  intros (_ & _ & rest & Hupd & ->)%turn_accepted_inv. cbn [words].
  apply update_words_shrinks in Hupd as [Hsub _]. by apply same_length_sublist.
Qed.

Lemma all_open_step (n : Z) (r : nat) (inp : string) (s : session)
    (log : list shown) (v : verdict) (ltr : ascii) (s' : session) (word : string) :
  game_inv n s log -> same_length (words s) -> all_open s ->
  turn r inp s = Continues v ltr s' word -> all_open s'.
Proof.
  intros Hinv Hlen Hopen Ht.
  assert (accepted (turn r inp s) = Some (ltr, s', word)) as Ha by (by rewrite Ht).
  pose proof (game_inv_step _ _ _ _ _ _ _ _ Hinv Ha) as Hinv'.
  pose proof (same_length_step _ _ _ _ _ _ Ha Hlen) as Hlen'.
  pose proof (turn_continues_inv _ _ _ _ _ _ _ Ht) as Hv.
  apply turn_accepted_inv in Ha as (_ & _ & rest & Hupd & Hs').
  apply update_words_Ok_inv in Hupd as (_ & pat & Hcell & _).
  assert (word ∈ words s') as Hword by (rewrite Hs'; left).
  intros w Hw Hm. destruct v.
  - destruct Hv as [_ Hmiss]. apply Hmiss.
    rewrite missing_letters_empty in Hm.
    rewrite (agree_covered _ _ _ (game_inv_agree _ _ _ word w Hinv' Hlen' Hword Hw) Hm).
    by apply missing_letters_empty.
  - destruct Hv as [Hnot%in_word_false_iff _].
    assert (w ∈ cell ltr pat (words s)) as Hwc by (rewrite <- Hcell; by rewrite Hs' in Hw).
    assert (word ∈ cell ltr pat (words s)) as Hwordc by (rewrite <- Hcell; left).
    apply elem_of_cell in Hwc as [Hws Hwp]. apply elem_of_cell in Hwordc as [_ Hwordp].
    assert (ltr ∉ chars w) as Habs.
    { apply (idxs_from_nil_iff 0). change (idxs ltr w = []). congruence. }
    apply (Hopen w Hws). apply missing_letters_empty. intros c Hc.
    rewrite missing_letters_empty in Hm. specialize (Hm c Hc).
    rewrite Hs' in Hm. cbn [guessed_letters] in Hm.
    apply elem_of_union in Hm as [Hm%elem_of_singleton|Hm]; [|done]. by subst c.
Qed.

Lemma game_inv_start (ws : list string) (n : Z) : game_inv n (Session ws ∅ n) [].
Proof.
  unfold game_inv. cbn [words guessed_letters nguesses_left]. simpl.
  split; [lia|]. split; [constructor|]. split.
  { intros c. rewrite elem_of_empty. split; [done|]. apply not_elem_of_nil. }
  split; [|done]. intros c pat w Hin. by apply not_elem_of_nil in Hin.
Qed.

(** What the later statements use, for the three ways a game can stand
    after the inputs typed so far. *)
Lemma play_loop_facts (inputs : list (nat * string)) (ws : list string) (n : Z) :
  match play_loop inputs (Session ws ∅ n) [] with
  | Prompting s log => game_inv n s log
  | GameOver e s word log =>
      game_inv n s log /\ word ∈ words s /\
      exists ltr log0,
        log = log0 ++ [(ltr, idxs ltr word)] /\
        match e with
        | YouRock => in_word ltr word = true /\
                     missing_letters word (guessed_letters s) = ∅
        | YouSuck => in_word ltr word = false /\ nguesses_left s = 0%Z
        end
  | Traceback _ => True
  end.
Proof.
  apply (play_loop_ind2
           (fun s log => game_inv n s log)
           (fun e s word log =>
              game_inv n s log /\ word ∈ words s /\
              exists ltr log0,
                log = log0 ++ [(ltr, idxs ltr word)] /\
                match e with
                | YouRock => in_word ltr word = true /\
                             missing_letters word (guessed_letters s) = ∅
                | YouSuck => in_word ltr word = false /\ nguesses_left s = 0%Z
                end)).
  - intros r inp s log v ltr s' word Hinv Ht.
    apply (game_inv_step _ r inp s); [done|by rewrite Ht].
  - intros r inp s log e ltr s' word Hinv Ht.
    assert (accepted (turn r inp s) = Some (ltr, s', word)) as Ha by (by rewrite Ht).
    split; [by apply (game_inv_step _ r inp s)|]. split.
    + apply turn_accepted_inv in Ha as (_ & _ & rest & _ & ->). left.
    + exists ltr, log. split; [done|]. by apply turn_breaks_inv in Ht.
  - apply game_inv_start.
Qed.

(** With words of one length, none of them empty, every candidate of a
    game that still prompts has a character not guessed. *)
Lemma play_loop_open (inputs : list (nat * string)) (ws : list string) (n : Z)
    (s : session) (log : list shown) :
  same_length ws -> (forall w, w ∈ ws -> w <> EmptyString) ->
  play_loop inputs (Session ws ∅ n) [] = Prompting s log -> all_open s.
Proof.
  intros Hlen Hne Hrun.
  assert (game_inv n (Session ws ∅ n) [] /\ same_length (words (Session ws ∅ n)) /\
          all_open (Session ws ∅ n)) as Hstart.
  { split; [apply game_inv_start|]. split; [done|].
    intros w Hw Hm. cbn [words guessed_letters] in *.
    rewrite missing_letters_empty in Hm. pose proof (Hne w Hw) as Hw0.
    destruct w as [|c w]; [done|].
    apply (not_elem_of_empty (C := gset ascii) c), Hm. left. }
  pose proof (play_loop_ind2
                (fun s log => game_inv n s log /\ same_length (words s) /\ all_open s)
                (fun _ _ _ _ => True)) as Hind.
  pose proof (fun H1 H2 => Hind H1 H2 inputs _ _ Hstart) as Hind'. clear Hind.
  rewrite Hrun in Hind'. apply Hind'.
  - intros r inp s0 log0 v ltr s' word (Hinv & Hl & Hopen) Ht.
    assert (accepted (turn r inp s0) = Some (ltr, s', word)) as Ha by (by rewrite Ht).
    split; [by apply (game_inv_step _ r inp s0)|]. split.
    + by apply (same_length_step _ _ _ _ _ _ Ha).
    + by apply (all_open_step _ _ _ _ _ _ _ _ _ Hinv Hl Hopen Ht).
  - done.
Qed.

Lemma play_run_facts (lines : list string) (word_len n : Z) (inputs : list (nat * string))
    (s : session) (log : list shown) :
  run_state (play lines word_len n inputs) = Some (s, log) -> game_inv n s log.
Proof.
  unfold play. destruct (get_words lines word_len) as [ws|e] eqn:Hget; [|done].
  pose proof (play_loop_facts inputs ws n) as Hf.
  destruct (play_loop inputs (Session ws ∅ n) []) as [s1 log1|e s1 w log1|e]; simpl;
    [| |done]; intros [= <- <-]; by destruct Hf.
Qed.

(** X12: in a game started with [n] guesses, the number left is [n] minus
    the number of wrong guesses in the log; no letter is in the log twice,
    and the guessed letters are as many as the turns that took a guess. *)
Theorem guesses_are_counted (lines : list string) (word_len n : Z)
    (inputs : list (nat * string)) (s : session) (log : list shown) :
  run_state (play lines word_len n inputs) = Some (s, log) ->
  nguesses_left s = (n - Z.of_nat (length (misses log)))%Z /\
  NoDup log.*1 /\
  size (guessed_letters s) = length log.
Proof.
  intros (Hn & Hnd & Hg & _)%play_run_facts. split; [done|]. split; [done|].
  assert (guessed_letters s = list_to_set log.*1) as ->.
  { apply set_eq. intros c. by rewrite Hg, elem_of_list_to_set. }
  by rewrite size_list_to_set, length_fmap.
Qed.

Lemma guesses_are_counted_witness :
  let s := Session ["cot"; "dog"]%string {[ "a"%char; "x"%char; "o"%char ]} 3 in
  let log := [("x", []); ("o", [1]); ("a", [])]%char in
  nguesses_left s = (5 - Z.of_nat (length (misses log)))%Z /\
  NoDup log.*1 /\
  size (guessed_letters s) = length log.
Proof.
  intros s log.
  apply (guesses_are_counted ["cat"; "cot"; "dog"]%string 3 5
           [(0, "x"); (0, "O"); (0, "??"); (0, "a")]%string s log).
  vm_compute. reflexivity.
Defined.

(** X13: a game is lost on a wrong guess that brings the count to zero:
    the last entry of the log shows no place, the letter is in none of the
    remaining words, and the wrong guesses are as many as the guesses the
    game started with, which were one or more. *)
Theorem lost_when_guesses_run_out (lines : list string) (word_len n : Z)
    (inputs : list (nat * string)) (s : session) (word : string) (log : list shown) :
  play lines word_len n inputs = GameOver YouSuck s word log ->
  nguesses_left s = 0%Z /\
  Z.of_nat (length (misses log)) = n /\ (1 <= n)%Z /\
  exists ltr log0,
    log = log0 ++ [(ltr, [])] /\ forall w, w ∈ words s -> ltr ∉ chars w.
Proof.
  unfold play. destruct (get_words lines word_len) as [ws|e] eqn:Hget; [|done].
  intros Hrun. pose proof (play_loop_facts inputs ws n) as Hf.
  rewrite Hrun in Hf.
  destruct Hf as (Hinv & Hword & ltr & log0 & -> & Hnot%in_word_false_iff & Hz).
  pose proof Hinv as (Hn & _ & _ & Hc & _).
  rewrite misses_snoc, decide_True in Hn by done.
  rewrite misses_snoc, decide_True by done.
  split; [done|]. split; [lia|]. split; [lia|].
  exists ltr, log0. rewrite Hnot. split; [done|]. intros w Hw.
  apply (idxs_from_nil_iff 0). change (idxs ltr w = []). rewrite <- Hnot.
  apply (Hc ltr (idxs ltr word) w); [|done]. apply elem_of_app. right. left.
Qed.

Lemma lost_when_guesses_run_out_witness :
  let s := Session ["cot"; "dog"]%string {[ "a"%char; "x"%char ]} 0 in
  let log := [("x", []); ("a", [])]%char in
  nguesses_left s = 0%Z /\
  Z.of_nat (length (misses log)) = 2%Z /\ (1 <= 2)%Z /\
  exists ltr log0,
    log = log0 ++ [(ltr, [])] /\ forall w, w ∈ words s -> ltr ∉ chars w.
Proof.
  intros s log.
  apply (lost_when_guesses_run_out ["cat"; "cot"; "dog"]%string 3 2
           [(0, "x"); (0, "a"); (0, "o")]%string s "cot" log).
  vm_compute. reflexivity.
Defined.

(** X14: when the words the loop starts from all have the same length and
    the game is won, every letter of the word shown is guessed, and every
    candidate still in the list is that word: nothing is left undecided
    at a win. *)
Theorem won_word_is_the_only_candidate (inputs : list (nat * string))
    (ws : list string) (n : Z) (s : session) (word : string) (log : list shown) :
  same_length ws ->
  play_loop inputs (Session ws ∅ n) [] = GameOver YouRock s word log ->
  (forall c, c ∈ chars word -> c ∈ guessed_letters s) /\
  (forall w, w ∈ words s -> w = word).
Proof.
  intros Hlen Hrun. pose proof (play_loop_facts inputs ws n) as Hf.
  rewrite Hrun in Hf. destruct Hf as (Hinv & Hword & ltr & log0 & _ & _ & Hm).
  rewrite missing_letters_empty in Hm.
  assert (same_length (words s)) as Hlen'.
  { apply (same_length_sublist _ ws); [|done].
    apply (play_loop_sublist inputs (Session ws ∅ n) [] s log). by rewrite Hrun. }
  split; [done|]. intros w Hw.
  by apply (agree_covered _ _ _ (game_inv_agree _ _ _ w word Hinv Hlen' Hw Hword)).
Qed.

Lemma won_word_is_the_only_candidate_witness :
  let s := Session ["aa"%string] {[ "a"%char ]} 4 in
  (forall c, c ∈ chars "aa" -> c ∈ guessed_letters s) /\
  (forall w, w ∈ words s -> w = "aa"%string).
Proof.
  intros s.
  apply (won_word_is_the_only_candidate [(2, "A")]%string ["aa"; "ab"; "ba"]%string 4
           s "aa" [("a"%char, [0; 1])]).
  - intros w1 w2 H1 H2.
    assert (Forall (fun w => String.length w = 2) ["aa"; "ab"; "ba"]%string) as Hall
      by (repeat constructor).
    rewrite Forall_forall in Hall. by rewrite (Hall _ H1), (Hall _ H2).
  - vm_compute. reflexivity.
Defined.

(** X15: when the words the loop starts from all have the same length and
    none is empty, then while the game is still asking for a letter every
    candidate has a character that was not guessed yet: the loop never
    waits for a guess on a word that is already spelled out. *)
Theorem prompting_game_has_a_letter_left (inputs : list (nat * string))
    (ws : list string) (n : Z) (s : session) (log : list shown) :
  same_length ws -> (forall w, w ∈ ws -> w <> EmptyString) ->
  play_loop inputs (Session ws ∅ n) [] = Prompting s log ->
  forall w, w ∈ words s -> exists c, c ∈ chars w /\ c ∉ guessed_letters s.
Proof.
  intros Hlen Hne Hrun w Hw.
  pose proof (play_loop_open inputs ws n s log Hlen Hne Hrun) as Hopen.
  destruct (set_choose_L _ (Hopen w Hw)) as [c Hc].
  unfold missing_letters in Hc. apply elem_of_difference in Hc as [Hc%elem_of_list_to_set Hn].
  by exists c.
Qed.

Lemma prompting_game_has_a_letter_left_witness :
  let s := Session ["cot"; "dog"]%string {[ "a"%char; "x"%char; "o"%char ]} 3 in
  exists c, c ∈ chars "cot" /\ c ∉ guessed_letters s.
Proof.
  intros s.
  apply (prompting_game_has_a_letter_left
           [(0, "x"); (0, "O"); (0, "??"); (0, "a")]%string
           ["cat"; "cot"; "dog"]%string 5 s
           [("x", []); ("o", [1]); ("a", [])]%char).
  - intros w1 w2 H1 H2.
    assert (Forall (fun w => String.length w = 3) ["cat"; "cot"; "dog"]%string) as Hall
      by (repeat constructor).
    rewrite Forall_forall in Hall. by rewrite (Hall _ H1), (Hall _ H2).
  - intros w Hw.
    assert (Forall (fun w => w <> EmptyString) ["cat"; "cot"; "dog"]%string) as Hall
      by (repeat constructor; done).
    rewrite Forall_forall in Hall. by apply Hall.
  - vm_compute. reflexivity.
  - left.
Defined.

(** X16: when the words the loop starts from all have the same length,
    the line printed after a turn does not depend on which candidate is
    taken as the word: every candidate of the list gives the same blanked
    line under the guessed letters. *)
Theorem masked_same_for_all_candidates (inputs : list (nat * string))
    (ws : list string) (n : Z) (s : session) (log : list shown) (w1 w2 : string) :
  same_length ws ->
  run_state (play_loop inputs (Session ws ∅ n) []) = Some (s, log) ->
  w1 ∈ words s -> w2 ∈ words s ->
  masked w1 (guessed_letters s) = masked w2 (guessed_letters s).
Proof.
  intros Hlen Hrun H1 H2.
  assert (same_length (words s)) as Hlen'.
  { apply (same_length_sublist _ ws); [|done].
    by apply (play_loop_sublist inputs (Session ws ∅ n) [] s log). }
  assert (game_inv n s log) as Hinv.
  { pose proof (play_loop_facts inputs ws n) as Hf.
    destruct (play_loop inputs (Session ws ∅ n) []) as [s1 log1|e s1 w log1|e];
      simpl in Hrun; [| |done]; injection Hrun as <- <-; by destruct Hf. }
  by apply agree_masked, (game_inv_agree _ _ _ w1 w2 Hinv Hlen').
Qed.

Lemma masked_same_for_all_candidates_witness :
  let s := Session ["cot"; "dog"]%string {[ "a"%char; "x"%char; "o"%char ]} 3 in
  masked "cot" (guessed_letters s) = masked "dog" (guessed_letters s).
Proof.
  intros s.
  apply (masked_same_for_all_candidates
           [(0, "x"); (0, "O"); (0, "??"); (0, "a")]%string
           ["cat"; "cot"; "dog"]%string 5 s
           [("x", []); ("o", [1]); ("a", [])]%char "cot" "dog").
  - intros w1 w2 H1 H2.
    assert (Forall (fun w => String.length w = 3) ["cat"; "cot"; "dog"]%string) as Hall
      by (repeat constructor).
    rewrite Forall_forall in Hall. by rewrite (Hall _ H1), (Hall _ H2).
  - vm_compute. reflexivity.
  - left.
  - right. left.
Defined.

(** ** What the typed lines can and cannot do *)

Lemma turn_lower (r : nat) (inp : string) (s : session) :
  turn r (lower inp) s = turn r inp s.
Proof. unfold turn. by rewrite lower_idemp. Qed.

(** X17: the case in which the player types is ignored: the game on the
    lower-cased lines is the game on the lines as typed. *)
Theorem guess_case_is_ignored (inputs : list (nat * string)) (s : session)
    (log : list shown) :
  play_loop ((fun x : nat * string => (x.1, lower x.2)) <$> inputs) s log =
  play_loop inputs s log.
Proof.
  revert s log. induction inputs as [|[r inp] inputs IH]; intros s log; [done|].
  rewrite fmap_cons. cbn [play_loop fst snd]. rewrite turn_lower.
  destruct (turn r inp s); auto.
Qed.

(** X18: lines that are not exactly one character long never change a
    game: leaving them out of the input gives the same run. *)
Theorem malformed_lines_change_nothing (inputs : list (nat * string)) (s : session)
    (log : list shown) :
  play_loop (filter (fun x : nat * string => String.length x.2 = 1) inputs) s log =
  play_loop inputs s log.
Proof.
  revert s log. induction inputs as [|[r inp] inputs IH]; intros s log; [done|].
  rewrite filter_cons. cbn [snd]. case_decide as Hlen.
  - simpl. destruct (turn r inp s); auto.
  - rewrite IH. simpl. rewrite turn_not_one_letter; [done|]. by rewrite lower_length.
Qed.

(** X19: [update_words] raises exactly on the empty list, and then the
    [ValueError] of [max]; on every other list it returns a non-empty
    list, so that [words[0]] on line 156 never fails: no pass through the
    loop body ends in its [IndexError]. *)
Theorem update_words_fails_only_on_no_words (r : nat) (ws : list string) (ltr : ascii) :
  match update_words r ws ltr with
  | Ok g => ws <> [] /\ g <> []
  | Raise e => ws = [] /\ e = ValueError
  end /\
  (forall inp s, turn r inp s <> Crashes IndexError).
Proof.
  split.
  - destruct ws as [|w ws]; [by rewrite update_words_nil|].
    destruct (update_words_spec r (w :: ws) ltr) as (pat & -> & _ & Hne & _); done.
  - intros inp s. unfold turn. destruct (lower inp) as [|c [|c' rest]]; [done| |done].
    case_decide; [done|]. unfold accept_guess.
    destruct (update_words r (words s) c) as [[|w0 g]|e] eqn:Hupd.
    + by apply update_words_Ok_inv in Hupd as (_ & pat & _ & Hne & _).
    + destruct (in_word c w0); case_decide; done.
    + destruct (words s) as [|w0 l] eqn:Hws.
      * rewrite update_words_nil in Hupd. by injection Hupd as <-.
      * destruct (update_words_spec r (w0 :: l) c) as (pat & Hok & _); [done|].
        by rewrite Hok in Hupd.
Qed.
